(** * Battleship targeting engine: shallow embedding of [ai.py] and
    [ai_integration.py], and the properties of its specification.

    Conventions of the embedding.
    - Python integers are [Z]; a cell is the pair [(x, y)] (column, row).
    - Python lists are [list]; the [visited]/[used] sets are [gset cell].
    - The numpy heat map is a list of rows of counters.  Its entries are
      only ever zeroed and incremented by one, so they are modelled by
      [nat] (binary64 represents these small counts exactly).
    - A raised Python exception is the [Raise] outcome of the [res] monad.
    - The ambient generator of the [random] module and the wall clock are
      an explicit [World] of draw tapes, threaded through the code that
      consumes them; every theorem quantifies over all tapes. *)

From Stdlib Require Import ZArith QArith Floats Lia String.
From stdpp Require Import base list sorting gmap.

Local Open Scope Z_scope.

(** ** Python prelude *)

Inductive PyExc : Set :=
| ValueError
| IndexError
| ZeroDivisionError
| KeyError
| NotImplementedError.

(** Outcome of a call: a value, a raised exception, or [Unfinished] when
    a [while] loop of the model exhausts its iteration budget (shown
    below never to happen). *)
Inductive res (A : Type) : Type :=
| Ok (a : A)
| Raise (e : PyExc)
| Unfinished.
Arguments Ok {A} a.
Arguments Raise {A} e.
Arguments Unfinished {A}.

#[global] Instance res_ret : MRet res := λ A a, Ok a.
#[global] Instance res_bind : MBind res := λ A B k m,
  match m with
  | Ok a => k a
  | Raise e => Raise e
  | Unfinished => Unfinished
  end.

Definition is_Ok {A} (m : res A) : Prop := ∃ a, m = Ok a.

Abbreviation cell := (Z * Z)%type.

(** [range(n)]. *)
Definition pyrange (n : Z) : list Z := seqZ 0 n.

(** [l.remove(x)]: drops the first occurrence, [ValueError] when absent. *)
Fixpoint py_remove {A} `{EqDecision A} (x : A) (l : list A) : res (list A) :=
  match l with
  | [] => Raise ValueError
  | y :: l' =>
      if decide (x = y) then Ok l'
      else r ← py_remove x l'; Ok (y :: r)
  end.

(** [max(l, key=key)] on a non-empty list: the first element whose key is
    maximal. *)
Fixpoint py_max_from {A} (key : A → nat) (best : A) (l : list A) : A :=
  match l with
  | [] => best
  | a :: l' =>
      if bool_decide (key best < key a)%nat then py_max_from key a l'
      else py_max_from key best l'
  end.

Definition py_max {A} (key : A → nat) (l : list A) : res A :=
  match l with
  | [] => Raise ValueError
  | a :: l' => Ok (py_max_from key a l')
  end.

(** [sorted] on integers. *)
Definition py_sorted (l : list Z) : list Z := merge_sort Z.le l.

(** ** [ShotPattern], [ShipInfo] and [BaseAI] *)

Inductive ShotPattern : Set :=
| RANDOM
| DIAGONAL
| CHECKERBOARD
| SPIRAL
| EDGES_FIRST
| CENTER_FIRST.

(** The dataclass [ShipInfo]; its fields keep their names inside the
    module. *)
Module ShipInfo.
Record t : Type := mk {
size : Z;
hits : list cell;
orientation : option string;
sunk : bool
}.

Definition is_fully_hit (s : t) : bool :=
bool_decide (size s ≤ Z.of_nat (length (hits s))).
End ShipInfo.

Abbreviation grid := (list (list nat)).

Record BaseAI : Type := mkBaseAI {
  board_size : Z;
  shots_fired : list cell;
  hits : list cell;
  misses : list cell;
  ships_sunk : list ShipInfo.t;
  possible_targets : list cell;
  ship_sizes : list Z;
  remaining_ship_sizes : list Z;
  current_targets : list cell;
  ship_segments : list (list cell);
  heat_map : grid;
  last_shot_result : option string
}.

(** [np.zeros((n, n))]. *)
Definition grid_zeros (n : Z) : grid :=
  replicate (Z.to_nat n) (replicate (Z.to_nat n) 0%nat).

(** [g[row][col] += 1]. *)
Definition grid_incr (g : grid) (row col : Z) : grid :=
  alter (alter S (Z.to_nat col)) (Z.to_nat row) g.

(** [g[row][col]] as an optional read ([None] outside the array). *)
Definition grid_get (g : grid) (row col : Z) : option nat :=
  if bool_decide (0 ≤ row ∧ 0 ≤ col)
  then g !! Z.to_nat row ≫= (λ r, r !! Z.to_nat col)
  else None.

(** [self.heat_map[p[1]][p[0]]], used as a key on cells of the board. *)
Definition heat_at (g : grid) (p : cell) : nat :=
  default 0%nat (grid_get g p.2 p.1).

(** [BaseAI.__init__]. *)
Definition all_cells (n : Z) : list cell :=
  x ← pyrange n; y ← pyrange n; [(x, y)].

Definition BaseAI_init (n : Z) : BaseAI :=
  {| board_size := n;
     shots_fired := [];
     hits := [];
     misses := [];
     ships_sunk := [];
     possible_targets := all_cells n;
     ship_sizes := [5; 4; 3; 3; 2];
     remaining_ship_sizes := [5; 4; 3; 3; 2];
     current_targets := [];
     ship_segments := [];
     heat_map := grid_zeros n;
     last_shot_result := None |}.

(** *** [_can_place_ship] *)

Definition window_positions (x y sz : Z) (horizontal : bool) : list cell :=
  (λ i, if horizontal then (x + i, y) else (x, y + i)) <$> pyrange sz.

(** The first loop of [_can_place_ship]: [false] as soon as a position is
    beyond the board or a recorded miss. *)
Fixpoint positions_clear (n : Z) (ms : list cell) (ps : list cell) : bool :=
  match ps with
  | [] => true
  | p :: ps' =>
      if bool_decide (n ≤ p.1 ∨ n ≤ p.2) then false
      else if bool_decide (p ∈ ms) then false
      else positions_clear n ms ps'
  end.

Definition _can_place_ship (self : BaseAI) (x y sz : Z) (horizontal : bool)
  : bool :=
  let positions := window_positions x y sz horizontal in
  if negb (positions_clear (board_size self) (misses self) positions)
  then false
  else
    let hit_count := length (filter (λ p, p ∈ hits self) positions) in
    if bool_decide (0 < hit_count)%nat then
      let line_hits := filter (λ p, p ∈ hits self) positions in
      if bool_decide (1 < length line_hits)%nat then
        let xs := py_sorted ((if horizontal then fst else snd) <$> line_hits) in
        (* xs[-1] - xs[0] != len(xs) - 1 ; xs has two elements or more *)
        if bool_decide (default 0 (last xs) - default 0 (head xs)
                        ≠ Z.of_nat (length xs) - 1)
        then false else true
      else true
    else true.

(** *** [_update_heat_map] *)

(** The innermost loop: one increment per cell of the window. *)
Definition mark_window (g : grid) (x y sz : Z) (horizontal : bool) : grid :=
  foldl (λ g i, if horizontal then grid_incr g y (x + i)
                else grid_incr g (y + i) x) g (pyrange sz).

Definition heat_horizontal (self : BaseAI) (sz : Z) (g : grid) : grid :=
  foldl (λ g y,
    foldl (λ g x,
      if _can_place_ship self x y sz true then mark_window g x y sz true
      else g) g (pyrange (board_size self - sz + 1)))
    g (pyrange (board_size self)).

Definition heat_vertical (self : BaseAI) (sz : Z) (g : grid) : grid :=
  foldl (λ g y,
    foldl (λ g x,
      if _can_place_ship self x y sz false then mark_window g x y sz false
      else g) g (pyrange (board_size self)))
    g (pyrange (board_size self - sz + 1)).

(** The heat map that [_update_heat_map] leaves in [self.heat_map]. *)
Definition computed_heat_map (self : BaseAI) : grid :=
  foldl (λ g sz, heat_vertical self sz (heat_horizontal self sz g))
    (grid_zeros (board_size self)) (remaining_ship_sizes self).

Definition set_heat_map (self : BaseAI) (g : grid) : BaseAI :=
  {| board_size := board_size self;
     shots_fired := shots_fired self;
     hits := hits self;
     misses := misses self;
     ships_sunk := ships_sunk self;
     possible_targets := possible_targets self;
     ship_sizes := ship_sizes self;
     remaining_ship_sizes := remaining_ship_sizes self;
     current_targets := current_targets self;
     ship_segments := ship_segments self;
     heat_map := g;
     last_shot_result := last_shot_result self |}.

Definition _update_heat_map (self : BaseAI) : BaseAI :=
  set_heat_map self (computed_heat_map self).

(** Field updates of [BaseAI]. *)
Definition set_shots_fired (self : BaseAI) (v : list cell) : BaseAI :=
  mkBaseAI (board_size self) v (hits self) (misses self) (ships_sunk self)
    (possible_targets self) (ship_sizes self) (remaining_ship_sizes self)
    (current_targets self) (ship_segments self) (heat_map self)
    (last_shot_result self).

Definition set_hits (self : BaseAI) (v : list cell) : BaseAI :=
  mkBaseAI (board_size self) (shots_fired self) v (misses self)
    (ships_sunk self) (possible_targets self) (ship_sizes self)
    (remaining_ship_sizes self) (current_targets self) (ship_segments self)
    (heat_map self) (last_shot_result self).

Definition set_misses (self : BaseAI) (v : list cell) : BaseAI :=
  mkBaseAI (board_size self) (shots_fired self) (hits self) v
    (ships_sunk self) (possible_targets self) (ship_sizes self)
    (remaining_ship_sizes self) (current_targets self) (ship_segments self)
    (heat_map self) (last_shot_result self).

Definition set_ships_sunk (self : BaseAI) (v : list ShipInfo.t) : BaseAI :=
  mkBaseAI (board_size self) (shots_fired self) (hits self) (misses self) v
    (possible_targets self) (ship_sizes self) (remaining_ship_sizes self)
    (current_targets self) (ship_segments self) (heat_map self)
    (last_shot_result self).

Definition set_possible_targets (self : BaseAI) (v : list cell) : BaseAI :=
  mkBaseAI (board_size self) (shots_fired self) (hits self) (misses self)
    (ships_sunk self) v (ship_sizes self) (remaining_ship_sizes self)
    (current_targets self) (ship_segments self) (heat_map self)
    (last_shot_result self).

Definition set_remaining_ship_sizes (self : BaseAI) (v : list Z) : BaseAI :=
  mkBaseAI (board_size self) (shots_fired self) (hits self) (misses self)
    (ships_sunk self) (possible_targets self) (ship_sizes self) v
    (current_targets self) (ship_segments self) (heat_map self)
    (last_shot_result self).

Definition set_last_shot_result (self : BaseAI) (v : option string) : BaseAI :=
  mkBaseAI (board_size self) (shots_fired self) (hits self) (misses self)
    (ships_sunk self) (possible_targets self) (ship_sizes self)
    (remaining_ship_sizes self) (current_targets self) (ship_segments self)
    (heat_map self) v.

(** *** [_find_ship_from_last_hit] *)

(** [0 <= p[0] < n and 0 <= p[1] < n]. *)
Definition in_board (n : Z) (p : cell) : Prop :=
  (0 ≤ p.1 ∧ p.1 < n) ∧ (0 ≤ p.2 ∧ p.2 < n).

#[global] Instance in_board_dec n p : Decision (in_board n p).
Proof. unfold in_board. apply _. Defined.

Definition orthogonal_steps : list cell := [(0, 1); (1, 0); (0, -1); (-1, 0)].

Definition shift (c d : cell) : cell := (c.1 + d.1, c.2 + d.2).

(** The [while queue and len(ship_hits) < size] loop; each unit of [fuel]
    pays for one iteration. *)
Fixpoint find_ship_loop (fuel : nat) (self : BaseAI) (sz : Z)
    (visited : gset cell) (queue ship : list cell) : res (list cell) :=
  match fuel with
  | O => Unfinished
  | S fuel' =>
      match queue with
      | [] => Ok ship
      | c :: queue' =>
          if bool_decide (Z.of_nat (length ship) < sz) then
            if bool_decide (c ∈ visited) then
              find_ship_loop fuel' self sz visited queue' ship
            else
              let visited' := {[c]} ∪ visited in
              if bool_decide (c ∈ hits self) then
                let fresh :=
                  filter (λ p, in_board (board_size self) p ∧ p ∉ visited')
                    (shift c <$> orthogonal_steps) in
                find_ship_loop fuel' self sz visited' (queue' ++ fresh)
                  (ship ++ [c])
              else find_ship_loop fuel' self sz visited' queue' ship
          else Ok ship
      end
  end.

(** Iteration budget of the traversal: every hit cell is expanded once and
    enqueues at most four cells. *)
Definition find_ship_fuel (self : BaseAI) : nat :=
  (4 * length (hits self) + 2)%nat.

Definition _find_ship_from_last_hit (self : BaseAI) (x y sz : Z)
  : res (list cell) :=
  ship ← find_ship_loop (find_ship_fuel self) self sz ∅ [(x, y)] [];
  if bool_decide (Z.of_nat (length ship) = sz) then Ok ship else Ok [].

(** *** [_clear_adjacent_targets] *)

Definition around_steps : list cell :=
  dx ← [-1; 0; 1]; dy ← [-1; 0; 1]; [(dx, dy)].

(** The body of the innermost loop, on the list of possible targets. *)
Definition clear_target (n : Z) (targets : res (list cell)) (p : cell)
  : res (list cell) :=
  ts ← targets;
  if bool_decide (in_board n p ∧ p ∈ ts) then py_remove p ts else Ok ts.

Definition _clear_adjacent_targets (self : BaseAI) (ship_positions : list cell)
  : res BaseAI :=
  ts ← foldl (clear_target (board_size self)) (Ok (possible_targets self))
       (c ← ship_positions; shift c <$> around_steps);
  Ok (set_possible_targets self ts).

(** *** [update_after_guess] *)

(** Truth value of an [Optional[int]]. *)
Definition truthy (o : option Z) : bool :=
  match o with
  | Some z => negb (z =? 0)
  | None => false
  end.

Definition record_sinking (self : BaseAI) (x y : Z) (sunk_ship_size : Z)
  : res BaseAI :=
  found ← _find_ship_from_last_hit self x y sunk_ship_size;
  match found with
  | [] => Ok self
  | _ :: _ =>
      let self :=
        set_ships_sunk self
          (ships_sunk self ++ [ShipInfo.mk sunk_ship_size found None true]) in
      rem ← (if bool_decide (sunk_ship_size ∈ remaining_ship_sizes self)
             then py_remove sunk_ship_size (remaining_ship_sizes self)
             else Ok (remaining_ship_sizes self));
      _clear_adjacent_targets (set_remaining_ship_sizes self rem) found
  end.

Definition update_after_guess (self : BaseAI) (x y : Z) (is_hit is_sunk : bool)
    (sunk_ship_size : option Z) : res BaseAI :=
  let self := set_shots_fired self (shots_fired self ++ [(x, y)]) in
  self ← (if is_hit then
            let self := set_hits self (hits self ++ [(x, y)]) in
            let self := set_last_shot_result self (Some "hit"%string) in
            if is_sunk && truthy sunk_ship_size
            then record_sinking self x y (default 0 sunk_ship_size)
            else Ok self
          else
            let self := set_misses self (misses self ++ [(x, y)]) in
            Ok (set_last_shot_result self (Some "miss"%string)));
  ts ← (if bool_decide ((x, y) ∈ possible_targets self)
        then py_remove (x, y) (possible_targets self)
        else Ok (possible_targets self));
  Ok (_update_heat_map (set_possible_targets self ts)).

(** [_get_adjacent_positions]. *)
Definition _get_adjacent_positions (self : BaseAI) (x y : Z) : list cell :=
  filter (λ p, in_board (board_size self) p ∧ p ∈ possible_targets self)
    (shift (x, y) <$> orthogonal_steps).

(** [BaseAI.make_guess]. *)
Definition BaseAI_make_guess (self : BaseAI) : res (option cell) :=
  Raise NotImplementedError.

#[local] Set Warnings "-inexact-float".

(** ** The ambient world: the [random] module and the wall clock

    [unit_tape] holds the successive values of [random.random()],
    [index_tape] the integers behind [random.choice] and
    [random.choices], [clock_tape] the successive values of
    [time.time()].  A binary64 value is a rational, so the draws and the
    thresholds they are compared with are kept in [Q]. *)

Record World : Type := mkWorld {
  unit_tape : nat → Q;
  index_tape : nat → nat;
  clock_tape : nat → Q;
  draws : nat;
  reads : nat
}.

Definition rand (A : Type) : Type := World → res (A * World).

#[global] Instance rand_ret : MRet rand := λ A a w, Ok (a, w).
#[global] Instance rand_bind : MBind rand := λ A B k m w,
  match m w with
  | Ok (a, w') => k a w'
  | Raise e => Raise e
  | Unfinished => Unfinished
  end.

(** A computation that does not touch the world. *)
Definition lift {A} (m : res A) : rand A := λ w,
  match m with
  | Ok a => Ok (a, w)
  | Raise e => Raise e
  | Unfinished => Unfinished
  end.

Definition next_draw (w : World) : World :=
  mkWorld (unit_tape w) (index_tape w) (clock_tape w) (S (draws w)) (reads w).

Definition next_read (w : World) : World :=
  mkWorld (unit_tape w) (index_tape w) (clock_tape w) (draws w) (S (reads w)).

(** [random.random()]. *)
Definition random_random : rand Q := λ w,
  Ok (unit_tape w (draws w), next_draw w).

(** [random.choice(l)]: some element of [l]; [IndexError] on the empty
    list. *)
Definition random_choice {A} (l : list A) : rand A := λ w,
  match l !! (index_tape w (draws w) `mod` length l)%nat with
  | Some a => Ok (a, next_draw w)
  | None => Raise IndexError
  end.

(** [random.choices(population, weights=weights)[0]] with positive
    weights: some element of the population. *)
Definition random_choices1 {A W} (population : list A) (weights : list W)
  : rand A :=
  random_choice population.

(** [time.time()]. *)
Definition time_time : rand Q := λ w,
  Ok (clock_tape w (reads w), next_read w).

(** ** Python helpers on cells and integers *)

(** [min(l)] and [max(l)] on a non-empty list of integers. *)
Definition py_minZ (l : list Z) : Z := foldr Z.min (default 0 (head l)) l.
Definition py_maxZ (l : list Z) : Z := foldr Z.max (default 0 (head l)) l.

(** Tuples compare lexicographically. *)
Definition cell_le (a b : cell) : Prop :=
  a.1 < b.1 ∨ (a.1 = b.1 ∧ a.2 ≤ b.2).

#[global] Instance cell_le_dec a b : Decision (cell_le a b).
Proof. unfold cell_le. apply _. Defined.

(** [sorted(group)] on a list of cells. *)
Definition py_sorted_cells (l : list cell) : list cell := merge_sort cell_le l.

(** [sorted(l, key=key)]: stable, ascending in an integer key. *)
Fixpoint insert_by_key {A} (key : A → Z) (a : A) (l : list A) : list A :=
  match l with
  | [] => [a]
  | b :: l' =>
      if bool_decide (key a ≤ key b) then a :: b :: l'
      else b :: insert_by_key key a l'
  end.

Definition py_sorted_by_key {A} (key : A → Z) (l : list A) : list A :=
  foldr (insert_by_key key) [] l.

(** ** [ImprovedHuntTargetAI] *)

(** The value of the attribute [hunt_pattern]: a member of [ShotPattern]
    (set by the constructor) or a string (assigned from the
    configuration by [AIPlayer._create_ai_instance]). *)
Inductive PatternValue : Type :=
| PatternEnum (p : ShotPattern)
| PatternStr (s : string).

Record ImprovedHuntTargetAI : Type := mkHunt {
  hunt_base : BaseAI;
  hunt_pattern : PatternValue;
  target_mode : bool;
  current_ship_hits : list cell;
  priority_targets : list cell
}.

Definition ImprovedHuntTargetAI_init (n : Z) : ImprovedHuntTargetAI :=
  mkHunt (BaseAI_init n) (PatternEnum CHECKERBOARD) false [] [].

(** [hit for hit in self.hits if not any(hit in ship.hits for ship in
    self.ships_sunk)]. *)
Definition unsunk_hits (self : BaseAI) : list cell :=
  filter (λ hit, ¬ Exists (λ ship, hit ∈ ShipInfo.hits ship) (ships_sunk self))
    (hits self).

(** *** [_hunt_mode] *)

(** The first non-empty anti-diagonal of possible targets. *)
Fixpoint diagonal_candidates (self : BaseAI) (ds : list Z) : list cell :=
  match ds with
  | [] => []
  | d :: ds' =>
      let found :=
        filter (λ p, (0 ≤ p.2 ∧ p.2 < board_size self)
                     ∧ p ∈ possible_targets self)
          ((λ x, (x, d - x)) <$> pyrange (board_size self)) in
      match found with
      | [] => diagonal_candidates self ds'
      | _ :: _ => found
      end
  end.

(** The list [candidates] built by [_hunt_mode]. *)
Definition hunt_candidates (self : BaseAI) (pattern : PatternValue)
  : list cell :=
  match pattern with
  | PatternEnum CHECKERBOARD =>
      let candidates :=
        filter (λ p, (p.1 + p.2) `mod` 2 = 0) (possible_targets self) in
      match candidates with
      | [] => possible_targets self
      | _ :: _ => candidates
      end
  | PatternEnum DIAGONAL =>
      diagonal_candidates self (pyrange (board_size self * 2))
  | PatternEnum SPIRAL =>
      let center := board_size self `div` 2 in
      py_sorted_by_key (λ p, Z.abs (p.1 - center) + Z.abs (p.2 - center))
        (possible_targets self)
  | _ => possible_targets self
  end.

Definition _hunt_mode (self : BaseAI) (pattern : PatternValue) : rand cell :=
  match hunt_candidates self pattern with
  | [] => random_choice (possible_targets self)
  | candidates => lift (py_max (heat_at (heat_map self)) candidates)
  end.

(** *** [_group_hits] *)

(** [other] is orthogonally adjacent to [member]. *)
Definition touching (other member : cell) : bool :=
  ((Z.abs (other.1 - member.1) =? 1) && (other.2 =? member.2))
  || ((Z.abs (other.2 - member.2) =? 1) && (other.1 =? member.1)).

(** One run of [for other in hits] inside the [while changed] loop. *)
Definition grow_pass (hs : list cell) (st : list cell * gset cell * bool)
  : list cell * gset cell * bool :=
  foldl (λ st other,
           let '(group, used, changed) := st in
           if bool_decide (other ∈ used) then st
           else if existsb (touching other) group
                then (group ++ [other], {[other]} ∪ used, true)
                else st)
    st hs.

(** The [while changed] loop; each unit of [fuel] pays for one pass. *)
Fixpoint grow_group (fuel : nat) (hs : list cell) (group : list cell)
    (used : gset cell) : res (list cell * gset cell) :=
  match fuel with
  | O => Unfinished
  | S fuel' =>
      let '(group', used', changed) := grow_pass hs (group, used, false) in
      if changed then grow_group fuel' hs group' used'
      else Ok (group', used')
  end.

Definition group_step (hs : list cell)
    (acc : res (list (list cell) * gset cell)) (hit : cell)
  : res (list (list cell) * gset cell) :=
  '(groups, used) ← acc;
  if bool_decide (hit ∈ used) then Ok (groups, used)
  else
    '(group, used') ← grow_group (S (length hs)) hs [hit] ({[hit]} ∪ used);
    Ok (groups ++ [py_sorted_cells group], used').

Definition _group_hits (hs : list cell) : res (list (list cell)) :=
  match hs with
  | [] => Ok []
  | _ :: _ => '(groups, _) ← foldl (group_step hs) (Ok ([], ∅)) hs; Ok groups
  end.

(** *** [_target_mode] *)

(** The body of [for group in ship_groups]: the cell returned for this
    group, if any. *)
Definition group_end (self : BaseAI) (group : list cell) : option cell :=
  match group with
  | [] => None
  | g0 :: _ =>
      if bool_decide (2 ≤ length group)%nat then
        if forallb (λ p, p.2 =? g0.2) group then
          let xs := fst <$> group in
          let min_x := py_minZ xs in
          let max_x := py_maxZ xs in
          let y := g0.2 in
          if bool_decide (0 < min_x ∧ (min_x - 1, y) ∈ possible_targets self)
          then Some (min_x - 1, y)
          else if bool_decide (max_x < board_size self - 1
                               ∧ (max_x + 1, y) ∈ possible_targets self)
          then Some (max_x + 1, y)
          else None
        else if forallb (λ p, p.1 =? g0.1) group then
          let ys := snd <$> group in
          let min_y := py_minZ ys in
          let max_y := py_maxZ ys in
          let x := g0.1 in
          if bool_decide (0 < min_y ∧ (x, min_y - 1) ∈ possible_targets self)
          then Some (x, min_y - 1)
          else if bool_decide (max_y < board_size self - 1
                               ∧ (x, max_y + 1) ∈ possible_targets self)
          then Some (x, max_y + 1)
          else None
        else None
      else None
  end.

(** The first group that yields a cell. *)
Fixpoint first_group_end (self : BaseAI) (groups : list (list cell))
  : option cell :=
  match groups with
  | [] => None
  | g :: groups' =>
      match group_end self g with
      | Some c => Some c
      | None => first_group_end self groups'
      end
  end.

(** The loop [for hit in unsunk_hits] over single hits: the neighbours of
    the first hit that has undetermined ones. *)
Fixpoint first_adjacents (self : BaseAI) (hs : list cell) : list cell :=
  match hs with
  | [] => []
  | hit :: hs' =>
      match _get_adjacent_positions self hit.1 hit.2 with
      | [] => first_adjacents self hs'
      | adjacents => adjacents
      end
  end.

Definition _target_mode (self : BaseAI) (pattern : PatternValue)
    (unsunk : list cell) : rand cell :=
  ship_groups ← lift (_group_hits unsunk);
  match first_group_end self ship_groups with
  | Some c => mret c
  | None =>
      match first_adjacents self unsunk with
      | [] => _hunt_mode self pattern
      | adjacents => lift (py_max (heat_at (heat_map self)) adjacents)
      end
  end.

(** *** [ImprovedHuntTargetAI.make_guess] *)

(** The [while self.priority_targets] loop: the returned target, if any,
    and what is left of the list. *)
Fixpoint pop_priority (self : BaseAI) (pts : list cell)
  : option cell * list cell :=
  match pts with
  | [] => (None, [])
  | target :: pts' =>
      if bool_decide (target ∈ possible_targets self) then (Some target, pts')
      else pop_priority self pts'
  end.

Definition set_priority_targets (self : ImprovedHuntTargetAI)
    (v : list cell) : ImprovedHuntTargetAI :=
  mkHunt (hunt_base self) (hunt_pattern self) (target_mode self)
    (current_ship_hits self) v.

Definition ImprovedHuntTargetAI_make_guess (self : ImprovedHuntTargetAI)
  : rand (option cell * ImprovedHuntTargetAI) :=
  let base := hunt_base self in
  match possible_targets base with
  | [] => mret (None, self)
  | _ :: _ =>
      let '(popped, rest) := pop_priority base (priority_targets self) in
      let self := set_priority_targets self rest in
      match popped with
      | Some target => mret (Some target, self)
      | None =>
          match unsunk_hits base with
          | [] =>
              c ← _hunt_mode base (hunt_pattern self); mret (Some c, self)
          | unsunk =>
              c ← _target_mode base (hunt_pattern self) unsunk;
              mret (Some c, self)
          end
      end
  end.

(** ** [AdaptiveAI]

    The pattern weights are Python floats: they are modelled by Rocq's
    binary64 numbers, whose operations round as the hardware does. *)

Record AdaptiveAI : Type := mkAdaptive {
  adaptive_base : BaseAI;
  opponent_patterns : gmap string float;
  games_played : Z;
  pattern_weights : gmap string float
}.

Definition default_pattern_weights : gmap string float :=
  <["diagonal_placement"%string := 0.5%float]>
  (<["spread_ships"%string := 0.5%float]>
  (<["cluster_ships"%string := 0.5%float]>
  (<["center_preference"%string := 0.5%float]>
  (<["edge_preference"%string := 0.5%float]> ∅)))).

Definition AdaptiveAI_init (n : Z) : AdaptiveAI :=
  mkAdaptive (BaseAI_init n) ∅ 0 default_pattern_weights.

(** [d[k]] on a [dict]. *)
Definition dict_get (d : gmap string float) (k : string) : res float :=
  match d !! k with
  | Some v => Ok v
  | None => Raise KeyError
  end.

(** A small non-negative integer as a float. *)
Definition float_of_nat (k : nat) : float :=
  PrimFloat.of_uint63 (Uint63.of_Z (Z.of_nat k)).

(** [a / b] on non-negative integers (true division). *)
Definition py_truediv (a b : nat) : res float :=
  match b with
  | O => Raise ZeroDivisionError
  | S _ => Ok (float_of_nat a / float_of_nat b)%float
  end.

Definition _is_edge (self : BaseAI) (x y : Z) : bool :=
  (x =? 0) || (x =? board_size self - 1)
  || (y =? 0) || (y =? board_size self - 1).

Definition _is_corner (self : BaseAI) (x y : Z) : bool :=
  ((x =? 0) || (x =? board_size self - 1))
  && ((y =? 0) || (y =? board_size self - 1)).

Definition _ships_are_close (ship1 ship2 : list cell) : bool :=
  existsb (λ p1, existsb (λ p2, (Z.abs (p1.1 - p2.1) <=? 2)
                                && (Z.abs (p1.2 - p2.2) <=? 2)) ship2)
    ship1.

(** The body of the loop that fills [probabilities]. *)
Definition weighted_probability (self : AdaptiveAI) (p : cell) : res float :=
  let base := adaptive_base self in
  let prob := float_of_nat (heat_at (heat_map base) p) in
  prob ← (if _is_edge base p.1 p.2
          then w ← dict_get (pattern_weights self) "edge_preference";
               Ok (prob * w)%float
          else w ← dict_get (pattern_weights self) "center_preference";
               Ok (prob * w)%float);
  if _is_corner base p.1 p.2
  then w ← dict_get (pattern_weights self) "edge_preference";
       Ok (if (0.7 <? w)%float then (prob * 1.2)%float else prob)
  else Ok prob.

(** [d[k] = v] on a dict kept in insertion order. *)
Fixpoint items_set {V} (d : list (cell * V)) (k : cell) (v : V)
  : list (cell * V) :=
  match d with
  | [] => [(k, v)]
  | (k', v') :: d' =>
      if decide (k = k') then (k', v) :: d' else (k', v') :: items_set d' k v
  end.

Fixpoint items_get {V} (d : list (cell * V)) (k : cell) : option V :=
  match d with
  | [] => None
  | (k', v') :: d' => if decide (k = k') then Some v' else items_get d' k
  end.

Definition fill_probabilities (self : AdaptiveAI)
  : res (list (cell * float)) :=
  foldl (λ acc p, d ← acc; prob ← weighted_probability self p;
                  Ok (items_set d p prob))
    (Ok []) (possible_targets (adaptive_base self)).

(** [sorted(items, key=lambda x: x[1], reverse=True)]: stable, descending
    in the probability. *)
Fixpoint insert_descending (a : cell * float) (l : list (cell * float))
  : list (cell * float) :=
  match l with
  | [] => [a]
  | b :: l' =>
      if (a.2 <? b.2)%float then b :: insert_descending a l'
      else a :: b :: l'
  end.

Definition sorted_descending (l : list (cell * float)) : list (cell * float) :=
  foldr insert_descending [] l.

(** The binary64 value of the literal [0.1]. *)
Definition threshold_0_1 : Q := 3602879701896397 # 36028797018963968.

Definition AdaptiveAI_make_guess (self : AdaptiveAI) : rand (option cell) :=
  let base := adaptive_base self in
  match possible_targets base with
  | [] => mret None
  | _ :: _ =>
      probabilities ← lift (fill_probabilities self);
      r ← random_random;
      if Qlt_le_dec r threshold_0_1 then
        c ← random_choice (possible_targets base); mret (Some c)
      else
        let best_targets := sorted_descending probabilities in
        let top_count := Nat.min 5 (length best_targets) in
        let weights :=
          (λ i, 1 / float_of_nat (i + 1))%float <$> seq 0 top_count in
        selected_idx ← random_choices1 (seq 0 top_count) weights;
        match best_targets !! selected_idx with
        | Some item => mret (Some item.1)
        | None => lift (Raise IndexError)
        end
  end.

Definition learn_from_game (self : AdaptiveAI)
    (enemy_ship_positions : list (list cell)) : res AdaptiveAI :=
  let base := adaptive_base self in
  let games := games_played self + 1 in
  let edge_ships :=
    length (filter (λ ship, existsb (λ p, _is_edge base p.1 p.2) ship = true)
              enemy_ship_positions) in
  let alpha := 0.2%float in
  edge_ratio ← py_truediv edge_ships (length enemy_ship_positions);
  old_edge ← dict_get (pattern_weights self) "edge_preference";
  let weights :=
    <["edge_preference"%string :=
        (alpha * edge_ratio + (1 - alpha) * old_edge)%float]>
      (pattern_weights self) in
  new_edge ← dict_get weights "edge_preference";
  let weights :=
    <["center_preference"%string := (1.0 - new_edge)%float]> weights in
  let clustered_ships :=
    length (filter (λ ship1,
              existsb (λ ship2, bool_decide (ship1 ≠ ship2)
                                && _ships_are_close ship1 ship2)
                enemy_ship_positions = true)
              enemy_ship_positions) in
  cluster_ratio ← py_truediv clustered_ships (length enemy_ship_positions);
  old_cluster ← dict_get weights "cluster_ships";
  let weights :=
    <["cluster_ships"%string :=
        (alpha * cluster_ratio + (1 - alpha) * old_cluster)%float]>
      weights in
  new_cluster ← dict_get weights "cluster_ships";
  let weights :=
    <["spread_ships"%string := (1.0 - new_cluster)%float]> weights in
  Ok (mkAdaptive base (opponent_patterns self) games weights).

(** ** [MonteCarloTreeSearchAI]

    Rewards, averages and probabilities are kept as exact rationals: the
    properties below depend on their signs and on which candidates are
    compared, not on binary64 rounding.  The exploration term
    [c * sqrt(log(total_visits) / visits)] is irrational; it is the
    parameter [ucb_bonus] of this section, known to be non-negative. *)

(** A score that may be infinite ([float('inf')], [-float('inf')]). *)
Inductive xscore : Type :=
| NegInf
| Fin (q : Q)
| PosInf.

(** [a > b]. *)
Definition xscore_gt (a b : xscore) : bool :=
  match a, b with
  | NegInf, _ => false
  | Fin _, NegInf => true
  | Fin p, Fin q => if Qlt_le_dec q p then true else false
  | Fin _, PosInf => false
  | PosInf, PosInf => false
  | PosInf, _ => true
  end.

(** [a == b]. *)
Definition xscore_eq (a b : xscore) : bool :=
  match a, b with
  | NegInf, NegInf => true
  | Fin p, Fin q => Qeq_bool p q
  | PosInf, PosInf => true
  | _, _ => false
  end.

Record MonteCarloTreeSearchAI : Type := mkMCTS {
  mcts_base : BaseAI;
  simulations : Z;
  time_limit : Q
}.

Definition MonteCarloTreeSearchAI_init (n : Z) (sims : Z) (limit : Q)
  : MonteCarloTreeSearchAI :=
  mkMCTS (BaseAI_init n) sims limit.

(** [d[k]] on a [defaultdict]: a missing key is inserted with the default
    value. *)
Definition dd_get {V} (dflt : V) (d : list (cell * V)) (k : cell)
  : V * list (cell * V) :=
  match items_get d k with
  | Some v => (v, d)
  | None => (dflt, d ++ [(k, dflt)])
  end.

(** [_simple_guess]: the body of the loop over the possible targets, on
    the pair of [best_heat] and [best_positions]. *)
Definition heat_step (self : BaseAI) (st : xscore * list cell) (p : cell)
  : xscore * list cell :=
  let '(best_heat, best_positions) := st in
  let heat := Fin (inject_Z (Z.of_nat (heat_at (heat_map self) p))) in
  if xscore_gt heat best_heat then (heat, [p])
  else if xscore_eq heat best_heat then (best_heat, best_positions ++ [p])
  else st.

Definition best_heat_positions (self : BaseAI) : list cell :=
  (foldl (heat_step self) (Fin (-1), []) (possible_targets self)).2.

Definition _simple_guess (self : BaseAI) : rand cell :=
  match first_adjacents self (unsunk_hits self) with
  | (_ :: _) as adjacents => random_choice adjacents
  | [] =>
      match best_heat_positions self with
      | (_ :: _) as best_positions => random_choice best_positions
      | [] => random_choice (possible_targets self)
      end
  end.

(** [min(a, b)] on rationals. *)
Definition py_minQ (a b : Q) : Q := if Qlt_le_dec b a then b else a.

(** [_calculate_hit_probability]; the heat map is non-empty whenever a
    target exists. *)
Definition _calculate_hit_probability (self : BaseAI) (x y : Z) : Q :=
  let base_prob :=
    (inject_Z (Z.of_nat (heat_at (heat_map self) (x, y)))
     / (inject_Z (Z.of_nat (max_list (concat (heat_map self)))) + (1 # 10)))%Q in
  let near_hit_bonus :=
    foldl (λ bonus h,
             let distance := Z.abs (x - h.1) + Z.abs (y - h.2) in
             if distance =? 1 then (bonus + (3 # 10))%Q
             else if distance =? 2 then (bonus + (1 # 10))%Q
             else bonus)
      0%Q (hits self) in
  py_minQ (9 # 10) (base_prob + near_hit_bonus)%Q.

(** The state of one playout. *)
Record Playout : Type := mkPlayout {
  sim_hits : list cell;
  sim_misses : list cell;
  sim_remaining_ships : list Z;
  sim_targets : list cell;
  shots_taken : Z;
  sim_ships_sunk : Z
}.

(** The target of one simulated shot. *)
Definition playout_target (s : Playout) : rand cell :=
  let near :=
    (fix first_near (hs : list cell) : list cell :=
       match hs with
       | [] => []
       | hit :: hs' =>
           match filter (λ p, p ∈ sim_targets s)
                   (shift hit <$> orthogonal_steps) with
           | [] => first_near hs'
           | adjacents => adjacents
           end
       end) (sim_hits s) in
  match near with
  | [] => random_choice (sim_targets s)
  | adjacents => random_choice adjacents
  end.

(** The loop [while sim_targets and sim_remaining_ships and shots_taken <
    50]; each unit of [fuel] pays for one iteration. *)
Fixpoint playout_loop (fuel : nat) (s : Playout) : rand Playout :=
  match sim_targets s, sim_remaining_ships s with
  | _ :: _, _ :: _ =>
      if shots_taken s <? 50 then
        match fuel with
        | O => lift Unfinished
        | S fuel' =>
            target ← playout_target s;
            targets ← lift (py_remove target (sim_targets s));
            let shots := shots_taken s + 1 in
            r ← random_random;
            if Qlt_le_dec r (3 # 10) then
              let hits' := sim_hits s ++ [target] in
              r' ← random_random;
              if Qlt_le_dec r' (2 # 10) then
                playout_loop fuel'
                  (mkPlayout hits' (sim_misses s)
                     (removelast (sim_remaining_ships s)) targets shots
                     (sim_ships_sunk s + 1))
              else
                playout_loop fuel'
                  (mkPlayout hits' (sim_misses s) (sim_remaining_ships s)
                     targets shots (sim_ships_sunk s))
            else
              playout_loop fuel'
                (mkPlayout (sim_hits s) (sim_misses s) (sim_remaining_ships s)
                   targets shots (sim_ships_sunk s))
        end
      else mret s
  | _, _ => mret s
  end.

Definition _simulate_from_position (self : BaseAI) (position : cell) : rand Q :=
  let hit_probability := _calculate_hit_probability self position.1 position.2 in
  r ← random_random;
  let is_hit := if Qlt_le_dec r hit_probability then true else false in
  targets ← lift (py_remove position (possible_targets self));
  s ← playout_loop 50
        (mkPlayout (if is_hit then hits self ++ [position] else hits self)
           (if is_hit then misses self else misses self ++ [position])
           (remaining_ship_sizes self) targets 1 0);
  mret (match sim_remaining_ships s with
        | [] => 100 / inject_Z (shots_taken s)
        | _ :: _ => (inject_Z (sim_ships_sunk s) * 10) / inject_Z (shots_taken s)
        end)%Q.

Section simulation_search.
(** [ucb_bonus total visits] stands for
  [math.sqrt(2) * math.sqrt(math.log(total) / visits)]. *)
Variable ucb_bonus : Z → Z → Q.

(** The body of the loop of [_select_position] over the possible
  targets. *)
Definition scan_step (total_visits : Z)
  (st : list (cell * Z) * list (cell * Q) * xscore * list cell) (pos : cell)
: list (cell * Z) * list (cell * Q) * xscore * list cell :=
let '(visit_counts, win_scores, best_score, best_positions) := st in
let '(visits, visit_counts) := dd_get 0 visit_counts pos in
let '(score, visit_counts, win_scores) :=
  if visits =? 0 then (PosInf, visit_counts, win_scores)
  else
    let '(won, win_scores) := dd_get 0%Q win_scores pos in
    let '(visits', visit_counts) := dd_get 0 visit_counts pos in
    let '(visits'', visit_counts) := dd_get 0 visit_counts pos in
    let avg_score := (won / inject_Z visits')%Q in
    let exploration := ucb_bonus total_visits visits'' in
    (Fin (avg_score + exploration)%Q, visit_counts, win_scores) in
if xscore_gt score best_score
then (visit_counts, win_scores, score, [pos])
else if xscore_eq score best_score
then (visit_counts, win_scores, best_score, best_positions ++ [pos])
else (visit_counts, win_scores, best_score, best_positions).

Definition select_scan (self : BaseAI) (total_visits : Z)
  (visit_counts : list (cell * Z)) (win_scores : list (cell * Q))
: list (cell * Z) * list (cell * Q) * xscore * list cell :=
foldl (scan_step total_visits)
  (visit_counts, win_scores, Fin (-1), []) (possible_targets self).

Definition _select_position (self : BaseAI)
  (visit_counts : list (cell * Z)) (win_scores : list (cell * Q))
: rand (cell * list (cell * Z) * list (cell * Q)) :=
let total_visits := foldr Z.add 0 (snd <$> visit_counts) in
if total_visits =? 0 then
  c ← random_choice (possible_targets self);
  mret (c, visit_counts, win_scores)
else
  let '(visit_counts, win_scores, _, best_positions) :=
    select_scan self total_visits visit_counts win_scores in
  c ← random_choice best_positions;
  mret (c, visit_counts, win_scores).

(** The loop [while simulations_run < self.simulations and time.time() -
  start_time < self.time_limit]; [budget] is the number of simulations
  still allowed, [self.simulations - simulations_run]. *)
Fixpoint search_loop (budget : nat) (self : MonteCarloTreeSearchAI)
  (start_time : Q) (visit_counts : list (cell * Z))
  (win_scores : list (cell * Q))
: rand (list (cell * Z) * list (cell * Q)) :=
match budget with
| O => mret (visit_counts, win_scores)
| S budget' =>
    now ← time_time;
    if Qlt_le_dec (now - start_time) (time_limit self) then
      '(position, visit_counts, win_scores) ←
        _select_position (mcts_base self) visit_counts win_scores;
      score ← _simulate_from_position (mcts_base self) position;
      let '(visits, visit_counts) := dd_get 0 visit_counts position in
      let visit_counts := items_set visit_counts position (visits + 1) in
      let '(won, win_scores) := dd_get 0%Q win_scores position in
      let win_scores := items_set win_scores position (won + score)%Q in
      search_loop budget' self start_time visit_counts win_scores
    else mret (visit_counts, win_scores)
end.

(** The body of the final loop [for pos in visit_counts]. *)
Definition average_step (st : option cell * Q * list (cell * Q))
  (item : cell * Z) : option cell * Q * list (cell * Q) :=
let '(best_position, best_avg_score, win_scores) := st in
let '(pos, visits) := item in
if 0 <? visits then
  let '(won, win_scores) := dd_get 0%Q win_scores pos in
  let avg_score := (won / inject_Z visits)%Q in
  if Qlt_le_dec best_avg_score avg_score
  then (Some pos, avg_score, win_scores)
  else (best_position, best_avg_score, win_scores)
else st.

Definition best_average (visit_counts : list (cell * Z))
  (win_scores : list (cell * Q)) : option cell :=
(foldl average_step (None, (-1)%Q, win_scores) visit_counts).1.1.

Definition MonteCarloTreeSearchAI_make_guess (self : MonteCarloTreeSearchAI)
: rand (option cell) :=
let base := mcts_base self in
match possible_targets base with
| [] => mret None
| _ :: _ =>
    if (Z.of_nat (length (shots_fired base)) <? 5)
       || (Z.of_nat (length (possible_targets base)) <? 10)
    then c ← _simple_guess base; mret (Some c)
    else
      start_time ← time_time;
      '(visit_counts, win_scores) ←
        search_loop (Z.to_nat (simulations self)) self start_time [] [];
      match best_average visit_counts win_scores with
      | Some best_position => mret (Some best_position)
      | None =>
          c ← random_choice (possible_targets base); mret (Some c)
      end
end.
End simulation_search.

(** ** [NeuralNetworkAI]

    The weights are drawn at random by the constructor and never trained.
    The composite [_forward(_create_features())] they determine is the
    field [network]; the masking of the scores and the choice of the best
    index are modelled in full. *)

Record NeuralNetworkAI : Type := mkNN {
  nn_base : BaseAI;
  input_size : Z;
  hidden_size : Z;
  output_size : Z;
  network : BaseAI → res (list Q)
}.

(** [a[i] = v] on an array, for a non-negative index. *)
Definition array_set {A} (a : list A) (i : Z) (v : A) : res (list A) :=
  if bool_decide (i < Z.of_nat (length a)) then Ok (<[Z.to_nat i := v]> a)
  else Raise IndexError.

(** The loops that mask the positions that are not possible targets:
    their body, and the two loops over the rows and the columns. *)
Definition mask_step (self : BaseAI) (acc : res (list xscore)) (p : cell)
  : res (list xscore) :=
  a ← acc;
  if bool_decide (p ∉ possible_targets self)
  then array_set a (p.2 * board_size self + p.1) NegInf
  else Ok a.

Definition mask_scores (self : BaseAI) (scores : list xscore)
  : res (list xscore) :=
  foldl (mask_step self) (Ok scores)
    (y ← pyrange (board_size self); x ← pyrange (board_size self); [(x, y)]).

(** [np.argmax]: the first index of a maximal entry. *)
Fixpoint argmax_from (best_idx : nat) (best : xscore) (i : nat)
    (l : list xscore) : nat :=
  match l with
  | [] => best_idx
  | a :: l' =>
      if xscore_gt a best then argmax_from i a (S i) l'
      else argmax_from best_idx best (S i) l'
  end.

Definition np_argmax (l : list xscore) : res nat :=
  match l with
  | [] => Raise ValueError
  | a :: l' => Ok (argmax_from 0 a 1 l')
  end.

Definition NeuralNetworkAI_make_guess (self : NeuralNetworkAI)
  : res (option cell) :=
  let base := nn_base self in
  match possible_targets base with
  | [] => Ok None
  | _ :: _ =>
      scores ← network self base;
      masked ← mask_scores base (Fin <$> scores);
      best_idx ← np_argmax masked;
      let x := Z.of_nat best_idx `mod` board_size base in
      let y := Z.of_nat best_idx `div` board_size base in
      Ok (Some (x, y))
  end.

(** ** The host layer: [AIConfig], [AIPlayer] *)

Module AIConfig.
Record t : Type := mk {
name : string;
description : string;
ai_class : string;
think_time : Q;
accuracy_boost : Q;
hunt_pattern : string;
target_aggression : Q;
mcts_simulations : Z;
mcts_time_limit : Q;
mistake_probability : Q;
memory_limit : Z;
learning_rate : Q;
exploration_rate : Q
}.

End AIConfig.

(** The object held in [AIPlayer.ai_core]. *)
Inductive AICore : Type :=
| CoreBase (ai : BaseAI)
| CoreHunt (ai : ImprovedHuntTargetAI)
| CoreAdaptive (ai : AdaptiveAI)
| CoreMCTS (ai : MonteCarloTreeSearchAI)
| CoreNN (ai : NeuralNetworkAI).

(** The [BaseAI] attributes of the object. *)
Definition core_base (core : AICore) : BaseAI :=
  match core with
  | CoreBase ai => ai
  | CoreHunt ai => hunt_base ai
  | CoreAdaptive ai => adaptive_base ai
  | CoreMCTS ai => mcts_base ai
  | CoreNN ai => nn_base ai
  end.

Definition core_set_base (core : AICore) (b : BaseAI) : AICore :=
  match core with
  | CoreBase _ => CoreBase b
  | CoreHunt ai =>
      CoreHunt (mkHunt b (hunt_pattern ai) (target_mode ai)
                  (current_ship_hits ai) (priority_targets ai))
  | CoreAdaptive ai =>
      CoreAdaptive (mkAdaptive b (opponent_patterns ai) (games_played ai)
                      (pattern_weights ai))
  | CoreMCTS ai => CoreMCTS (mkMCTS b (simulations ai) (time_limit ai))
  | CoreNN ai =>
      CoreNN (mkNN b (input_size ai) (hidden_size ai) (output_size ai)
                (network ai))
  end.

(** The inherited [update_after_guess]. *)
Definition core_update_after_guess (core : AICore) (x y : Z)
    (is_hit is_sunk : bool) (sunk_ship_size : option Z) : res AICore :=
  b ← update_after_guess (core_base core) x y is_hit is_sunk sunk_ship_size;
  Ok (core_set_base core b).


(** [AIPlayer._create_ai_instance]; [net] is the network that the
    constructor of [NeuralNetworkAI] would draw. *)
Definition _create_ai_instance (cfg : AIConfig.t)
    (net : BaseAI → res (list Q)) : AICore :=
  let hunt :=
    CoreHunt (mkHunt (BaseAI_init 10)
                (PatternStr (AIConfig.hunt_pattern cfg)) false [] []) in
  if String.eqb (AIConfig.ai_class cfg) "RandomAI"
  then CoreBase (BaseAI_init 10)
  else if String.eqb (AIConfig.ai_class cfg) "ImprovedHuntTargetAI"
  then hunt
  else if String.eqb (AIConfig.ai_class cfg) "AdaptiveAI"
  then CoreAdaptive (AdaptiveAI_init 10)
  else if String.eqb (AIConfig.ai_class cfg) "MonteCarloTreeSearchAI"
  then CoreMCTS (MonteCarloTreeSearchAI_init 10
                   (AIConfig.mcts_simulations cfg)
                   (AIConfig.mcts_time_limit cfg))
  else if String.eqb (AIConfig.ai_class cfg) "NeuralNetworkAI"
  then CoreNN (mkNN (BaseAI_init 10) 300 128 100 net)
  else hunt.

Section host.
Variable ucb_bonus : Z → Z → Q.

(** [self.ai_core.make_guess()], by the class of the object. *)
Definition core_make_guess (core : AICore) : rand (option cell * AICore) :=
match core with
| CoreBase ai => c ← lift (BaseAI_make_guess ai); mret (c, core)
| CoreHunt ai =>
    '(c, ai') ← ImprovedHuntTargetAI_make_guess ai; mret (c, CoreHunt ai')
| CoreAdaptive ai => c ← AdaptiveAI_make_guess ai; mret (c, core)
| CoreMCTS ai =>
    c ← MonteCarloTreeSearchAI_make_guess ucb_bonus ai; mret (c, core)
| CoreNN ai => c ← lift (NeuralNetworkAI_make_guess ai); mret (c, core)
end.





End host.


(** * Specification-side definitions

    These definitions follow the words of the specification; the theorems
    below compare them with the embedding of the code above. *)

(** ** ProbabilityField: accepted placement windows *)

Definition axis_coord (horizontal : bool) (p : cell) : Z :=
  if horizontal then p.1 else p.2.

Definition span_max (l : list Z) : Z := foldr Z.max (default 0 (head l)) l.
Definition span_min (l : list Z) : Z := foldr Z.min (default 0 (head l)) l.

(** "reject the window if any cell is a known miss or lies outside bounds;
    if the window contains ≥1 hit cells, additionally reject if those hits
    are not contiguous within the window (their max-min span ≠ count−1
    along the placement axis)". *)
Definition spec_window_rejected (self : BaseAI) (w : list cell)
    (horizontal : bool) : Prop :=
  Exists (λ p, ¬ in_board (board_size self) p) w
  ∨ Exists (λ p, p ∈ misses self) w
  ∨ (let hs := filter (λ p, p ∈ hits self) w in
     let cs := axis_coord horizontal <$> hs in
     (1 ≤ length hs)%nat
     ∧ span_max cs - span_min cs ≠ Z.of_nat (length hs) - 1).

#[global] Instance spec_window_rejected_dec self w horizontal :
  Decision (spec_window_rejected self w horizontal).
Proof. unfold spec_window_rejected. apply _. Defined.

(** Every remaining ship length, both orientations, every origin on the
    board. *)
Definition spec_windows (self : BaseAI) : list (Z * bool * cell) :=
  L ← remaining_ship_sizes self;
  o ← [true; false];
  y ← pyrange (board_size self);
  x ← pyrange (board_size self);
  [(L, o, (x, y))].

Definition spec_window_cells (w : Z * bool * cell) : list cell :=
  window_positions w.2.1 w.2.2 w.1.1 w.1.2.

(** "Accepted windows contribute +1 to the score of every cell they
    cover": the score of [c] is the number of accepted windows covering
    it. *)
Definition spec_score (self : BaseAI) (c : cell) : nat :=
  length (filter (λ w, ¬ spec_window_rejected self (spec_window_cells w) w.1.2
                       ∧ c ∈ spec_window_cells w)
            (spec_windows self)).

(** ** BoardState: connected hits, distance, reachable states *)

(** The hit cells 4-connected to [start]: [start] itself when it is a hit,
    and every hit cell of the board orthogonally adjacent to a connected
    one. *)
Inductive connected (n : Z) (hs : list cell) (start : cell) : cell → Prop :=
| connected_start : start ∈ hs → connected n hs start start
| connected_step c d :
    connected n hs start c → d ∈ orthogonal_steps →
    shift c d ∈ hs → in_board n (shift c d) →
    connected n hs start (shift c d).

(** "At least [L] 4-connected hit cells" at [start]. *)
Definition at_least_connected (n : Z) (hs : list cell) (start : cell) (L : Z)
  : Prop :=
  ∃ cs, NoDup cs ∧ L ≤ Z.of_nat (length cs)
        ∧ ∀ c, c ∈ cs → connected n hs start c.

(** "Fewer than [L] 4-connected hit cells" at [start]. *)
Definition fewer_connected (n : Z) (hs : list cell) (start : cell) (L : Z)
  : Prop :=
  ∀ cs, NoDup cs → (∀ c, c ∈ cs → connected n hs start c) →
        Z.of_nat (length cs) < L.

Definition chebyshev (a b : cell) : Z :=
  Z.max (Z.abs (a.1 - b.1)) (Z.abs (a.2 - b.2)).

(** "out of bounds or already present in shots". *)
Definition invalid_shot (self : BaseAI) (x y : Z) : Prop :=
  ¬ in_board (board_size self) (x, y) ∨ (x, y) ∈ shots_fired self.

(** States reached from a fresh board of side [n] by recording outcomes. *)
Inductive reachable (n : Z) : BaseAI → Prop :=
| reachable_init : reachable n (BaseAI_init n)
| reachable_step st x y is_hit is_sunk sunk_ship_size st' :
    reachable n st →
    update_after_guess st x y is_hit is_sunk sunk_ship_size = Ok st' →
    reachable n st'.

(** The state in which [update_after_guess] looks for a sunk ship: the
    shot is already appended to [shots_fired] and [hits]. *)
Definition with_hit (self : BaseAI) (x y : Z) : BaseAI :=
  set_last_shot_result
    (set_hits (set_shots_fired self (shots_fired self ++ [(x, y)]))
       (hits self ++ [(x, y)]))
    (Some "hit"%string).

(** A recorded outcome: the cell, hit or miss, and the sinking report. *)
Record Shot : Type := mkShot {
  shot_x : Z;
  shot_y : Z;
  shot_hit : bool;
  shot_sunk : bool;
  shot_size : option Z
}.

(** Recording a sequence of outcomes, oldest first. *)
Definition record_all (self : BaseAI) (shots : list Shot) : res BaseAI :=
  foldl (λ st s, st ← st;
                 update_after_guess st (shot_x s) (shot_y s) (shot_hit s)
                   (shot_sunk s) (shot_size s))
    (Ok self) shots.

(** The state of a fresh board of side [n] after the given outcomes. *)
Definition state_after (n : Z) (shots : list Shot) : BaseAI :=
  match record_all (BaseAI_init n) shots with
  | Ok st => st
  | _ => BaseAI_init n
  end.

(** ** Outcomes of computations that use the world *)

(** [m] run in [w] returns normally with a value satisfying [P]. *)
Definition returns {A} (m : rand A) (w : World) (P : A → Prop) : Prop :=
  ∃ a w', m w = Ok (a, w') ∧ P a.


(** ** Targeting: the end of a group that the strategy proposes *)

(** [e] is the cell taken for the collinear group [g] of at least two
    hits: the cell just below its lower end when that cell is on the
    board and undetermined, otherwise the cell just above its upper end
    when that one is. *)
Definition chosen_end (self : BaseAI) (g : list cell) (e : cell) : Prop :=
  (2 ≤ length g)%nat
  ∧ e ∈ possible_targets self
  ∧ ((∃ y, Forall (λ p : cell, p.2 = y) g
           ∧ let lo := (span_min (fst <$> g) - 1, y) in
             let hi := (span_max (fst <$> g) + 1, y) in
             (e = lo ∧ 0 ≤ lo.1)
             ∨ (e = hi ∧ hi.1 < board_size self
                ∧ ¬ (0 ≤ lo.1 ∧ lo ∈ possible_targets self)))
     ∨ (∃ x, Forall (λ p : cell, p.1 = x) g
             ∧ let lo := (x, span_min (snd <$> g) - 1) in
               let hi := (x, span_max (snd <$> g) + 1) in
               (e = lo ∧ 0 ≤ lo.2)
               ∨ (e = hi ∧ hi.2 < board_size self
                  ∧ ¬ (0 ≤ lo.2 ∧ lo ∈ possible_targets self)))).





(** A world whose tapes are constantly zero. *)
Definition still_world : World :=
  mkWorld (λ _, 0%Q) (λ _, 0%nat) (λ _, 0%Q) 0 0.

(** The undetermined cells of even parity. *)
Definition parity0 (self : BaseAI) : list cell :=
  filter (λ p : cell, (p.1 + p.2) `mod` 2 = 0) (possible_targets self).

(** ** Pattern learner: what is observed after a game *)

(** The ship has a cell on the border of the board of side [n]. *)
Definition touches_edge (n : Z) (ship : list cell) : Prop :=
  Exists (λ p : cell, p.1 = 0 ∨ p.1 = n - 1 ∨ p.2 = 0 ∨ p.2 = n - 1) ship.

#[global] Instance touches_edge_dec n ship : Decision (touches_edge n ship).
Proof. unfold touches_edge. apply _. Defined.

(** Two ships have cells within Chebyshev distance 2 of each other. *)
Definition ships_close (ship1 ship2 : list cell) : Prop :=
  Exists (λ p1, Exists (λ p2, chebyshev p1 p2 ≤ 2) ship2) ship1.

#[global] Instance ships_close_dec ship1 ship2 :
  Decision (ships_close ship1 ship2).
Proof. unfold ships_close. apply _. Defined.

(** The ship is close to some ship of the list that differs from it. *)
Definition has_close_neighbour (ships : list (list cell)) (ship : list cell)
  : Prop :=
  Exists (λ other, ship ≠ other ∧ ships_close ship other) ships.

#[global] Instance has_close_neighbour_dec ships ship :
  Decision (has_close_neighbour ships ship).
Proof. unfold has_close_neighbour. apply _. Defined.

(** The pairs of ships, each unordered pair once. *)
Fixpoint ship_pairs (ships : list (list cell))
  : list (list cell * list cell) :=
  match ships with
  | [] => []
  | ship :: rest => ((λ other, (ship, other)) <$> rest) ++ ship_pairs rest
  end.

(** "the fraction of ship pairs within Chebyshev distance 2 of each
    other". *)
Definition spec_pair_fraction (ships : list (list cell)) : Q :=
  (inject_Z (Z.of_nat (length (filter (λ pr, ships_close pr.1 pr.2)
                                 (ship_pairs ships))))
   / inject_Z (Z.of_nat (length (ship_pairs ships))))%Q.

(** The exponential moving average with smoothing factor 0.2, in binary64
    arithmetic. *)
Definition moving_average (observed old : float) : float :=
  (0.2 * observed + (1 - 0.2) * old)%float.

(** Two ships next to each other in a corner and a third one far away. *)
Definition two_close_one_far : list (list cell) :=
  [[(0, 0); (0, 1)]; [(2, 0); (2, 1)]; [(9, 7); (9, 8); (9, 9)]].

(** ** Strategy variants *)

(** The adaptive engines met in play: a new one, one whose board state has
    been replaced (outcomes were recorded), one that has learnt from a
    game. *)
Inductive trained : AdaptiveAI → Prop :=
| trained_init n : trained (AdaptiveAI_init n)
| trained_record ai b :
    trained ai →
    trained (mkAdaptive b (opponent_patterns ai) (games_played ai)
               (pattern_weights ai))
| trained_learn ai ships ai' :
    trained ai → learn_from_game ai ships = Ok ai' → trained ai'.

(** Hunting, Adaptive and SimulationSearch. *)
Definition strategy_variant (core : AICore) : Prop :=
  match core with
  | CoreHunt _ => True
  | CoreAdaptive ai => trained ai
  | CoreMCTS _ => True
  | CoreBase _ | CoreNN _ => False
  end.

(** The exploration term [sqrt(2) * sqrt(log(total) / visits)] is defined
    and non-negative once a position has been visited. *)
Definition exploration_nonneg (ucb_bonus : Z → Z → Q) : Prop :=
  ∀ total visits, 1 ≤ total → 1 ≤ visits → (0 <= ucb_bonus total visits)%Q.




(** Six misses along the top row of a 10x10 board. *)
Definition six_misses : BaseAI :=
  state_after 10 ((λ x, mkShot x 0 false false None) <$> pyrange 6).

(** A simulation search with no simulation allowed, after these misses. *)
Definition search_without_budget : AICore := CoreMCTS (mkMCTS six_misses 0 2).

(** An exploration term that is constantly zero. *)
Definition no_exploration : Z → Z → Q := λ _ _, 0%Q.



(** * Properties of the heat map *)

Example spec_score_fresh_corner : spec_score (BaseAI_init 10) (0, 0) = 10%nat.
Proof. vm_compute. reflexivity. Qed.

Section grid_facts.
Implicit Types (g : grid) (r c : Z).

(** A grid is square of side [n]. *)
Definition grid_square (n : nat) g : Prop :=
length g = n ∧ Forall (λ row, length row = n) g.

Lemma grid_zeros_square n : grid_square (Z.to_nat n) (grid_zeros n).
Proof.
split; [apply length_replicate|].
apply Forall_replicate, length_replicate.
Qed.

Lemma grid_incr_square n g r c :
grid_square n g → grid_square n (grid_incr g r c).
Proof.
intros [Hl Hr]. split.
- unfold grid_incr. by rewrite length_alter.
- unfold grid_incr. apply Forall_alter; [done|].
  intros row _ Hrow. by rewrite length_alter.
Qed.

Lemma grid_get_square n g r c :
grid_square n g → 0 ≤ r < Z.of_nat n → 0 ≤ c < Z.of_nat n →
is_Some (grid_get g r c).
Proof.
intros [Hl Hr] Hrn Hcn. unfold grid_get.
rewrite bool_decide_eq_true_2 by lia.
destruct (lookup_lt_is_Some_2 g (Z.to_nat r)) as [row Hrow]; [lia|].
rewrite Hrow. simpl.
apply lookup_lt_is_Some_2.
rewrite Forall_forall in Hr.
rewrite (Hr row); [lia|]. by eapply list_elem_of_lookup_2.
Qed.

Lemma grid_get_incr g r c r' c' :
0 ≤ r → 0 ≤ c →
grid_get (grid_incr g r c) r' c' =
  if decide (r = r' ∧ c = c') then S <$> grid_get g r' c'
  else grid_get g r' c'.
Proof.
intros Hr Hc. unfold grid_get, grid_incr.
case_bool_decide as Hnn.
- destruct Hnn as [Hr' Hc'].
  destruct (decide (r = r')) as [->|Hne].
  + rewrite list_lookup_alter_eq.
    destruct (g !! Z.to_nat r') as [row|] eqn:Hrow; simpl.
    * destruct (decide (c = c')) as [->|Hnc].
      -- rewrite decide_True by done. by rewrite list_lookup_alter_eq.
      -- rewrite decide_False by tauto.
         rewrite list_lookup_alter_ne; [done|lia].
    * by destruct (decide _).
  + rewrite decide_False by tauto.
    rewrite list_lookup_alter_ne; [done|lia].
- destruct (decide (r = r' ∧ c = c')) as [[-> ->]|]; [|done].
  exfalso. lia.
Qed.
End grid_facts.

(** ** The heat map as a list of increments *)

(** Replaying a list of cells as increments of their grid entries. *)
Definition apply_cells (g : grid) (cs : list cell) : grid :=
  foldl (λ g p, grid_incr g p.2 p.1) g cs.

Definition occurrences (c : cell) (cs : list cell) : nat :=
  length (filter (λ p, p = c) cs).

Lemma apply_cells_app g cs1 cs2 :
  apply_cells g (cs1 ++ cs2) = apply_cells (apply_cells g cs1) cs2.
Proof. apply foldl_app. Qed.

Lemma occurrences_app c cs1 cs2 :
  occurrences c (cs1 ++ cs2) = (occurrences c cs1 + occurrences c cs2)%nat.
Proof. unfold occurrences. by rewrite filter_app, length_app. Qed.

Lemma grid_get_apply_cells g cs (c : cell) :
  Forall (λ p : cell, 0 ≤ p.1 ∧ 0 ≤ p.2) cs →
  grid_get (apply_cells g cs) c.2 c.1 =
    (λ v, (v + occurrences c cs)%nat) <$> grid_get g c.2 c.1.
Proof.
  intros Hnn. revert g. induction Hnn as [|p cs [Hp1 Hp2] _ IH]; intros g.
  - simpl. destruct (grid_get g c.2 c.1); simpl; [f_equal; unfold occurrences; simpl; lia|done].
  - simpl. rewrite IH. rewrite grid_get_incr by done.
    unfold occurrences. rewrite filter_cons.
    destruct (decide (p.2 = c.2 ∧ p.1 = c.1)) as [[H2 H1]|Hne].
    + rewrite decide_True by (destruct p, c; simpl in *; congruence).
      destruct (grid_get g c.2 c.1); simpl; [f_equal; lia|done].
    + rewrite decide_False; [done|].
      intros ->. tauto.
Qed.

Lemma mark_window_cells g x y sz horizontal :
  mark_window g x y sz horizontal =
    apply_cells g (window_positions x y sz horizontal).
Proof.
  unfold mark_window, apply_cells, window_positions.
  generalize (pyrange sz) as l. intros l. revert g.
  induction l as [|i l IH]; intros g; [done|].
  simpl. rewrite <- IH. by destruct horizontal.
Qed.

(** The windows accepted by the two loop nests of [_update_heat_map], in
    the order in which the code visits them. *)
Definition code_cells_horizontal (self : BaseAI) (sz : Z) : list cell :=
  y ← pyrange (board_size self);
  x ← pyrange (board_size self - sz + 1);
  if _can_place_ship self x y sz true then window_positions x y sz true
  else [].

Definition code_cells_vertical (self : BaseAI) (sz : Z) : list cell :=
  y ← pyrange (board_size self - sz + 1);
  x ← pyrange (board_size self);
  if _can_place_ship self x y sz false then window_positions x y sz false
  else [].

Definition code_cells (self : BaseAI) : list cell :=
  sz ← remaining_ship_sizes self;
  code_cells_horizontal self sz ++ code_cells_vertical self sz.

Lemma foldl_bind_cells {A} (f : A → list cell) (step : grid → A → grid) l g :
  (∀ g a, step g a = apply_cells g (f a)) →
  foldl step g l = apply_cells g (l ≫= f).
Proof.
  intros Hstep. revert g. induction l as [|a l IH]; intros g; [done|].
  simpl. rewrite IH, Hstep. by rewrite apply_cells_app.
Qed.

Lemma heat_horizontal_cells self sz g :
  heat_horizontal self sz g = apply_cells g (code_cells_horizontal self sz).
Proof.
  unfold heat_horizontal, code_cells_horizontal.
  apply foldl_bind_cells. intros g' y.
  apply foldl_bind_cells. intros g'' x.
  destruct (_can_place_ship self x y sz true); [apply mark_window_cells|done].
Qed.

Lemma heat_vertical_cells self sz g :
  heat_vertical self sz g = apply_cells g (code_cells_vertical self sz).
Proof.
  unfold heat_vertical, code_cells_vertical.
  apply foldl_bind_cells. intros g' y.
  apply foldl_bind_cells. intros g'' x.
  destruct (_can_place_ship self x y sz false); [apply mark_window_cells|done].
Qed.

Lemma computed_heat_map_cells self :
  computed_heat_map self =
    apply_cells (grid_zeros (board_size self)) (code_cells self).
Proof.
  unfold computed_heat_map, code_cells.
  apply foldl_bind_cells. intros g sz.
  by rewrite heat_horizontal_cells, heat_vertical_cells, apply_cells_app.
Qed.

Lemma window_positions_elem (p : cell) x y sz horizontal :
  p ∈ window_positions x y sz horizontal ↔
    if horizontal then p.2 = y ∧ x ≤ p.1 < x + sz
    else p.1 = x ∧ y ≤ p.2 < y + sz.
Proof.
  unfold window_positions, pyrange. rewrite list_elem_of_fmap.
  setoid_rewrite elem_of_seqZ. destruct p as [px py]. simpl. split.
  - intros (i & Hp & Hi). destruct horizontal; inversion Hp; subst; lia.
  - destruct horizontal; intros [-> H].
    + exists (px - x). split; [f_equal; lia|lia].
    + exists (py - y). split; [f_equal; lia|lia].
Qed.

Lemma window_positions_NoDup x y sz horizontal :
  NoDup (window_positions x y sz horizontal).
Proof.
  unfold window_positions, pyrange. apply NoDup_fmap_2; [|apply NoDup_seqZ].
  intros i j Hij. destruct horizontal; inversion Hij; lia.
Qed.

Lemma code_cells_nonneg self :
  Forall (λ p : cell, 0 ≤ p.1 ∧ 0 ≤ p.2) (code_cells self).
Proof.
  apply Forall_forall. intros p. unfold code_cells.
  rewrite list_elem_of_bind. intros (sz & Hp & _).
  rewrite elem_of_app in Hp. destruct Hp as [Hp|Hp].
  - unfold code_cells_horizontal in Hp.
    apply list_elem_of_bind in Hp as (y & Hp & Hy).
    apply list_elem_of_bind in Hp as (x & Hp & Hx).
    apply elem_of_seqZ in Hy, Hx.
    destruct (_can_place_ship self x y sz true); [|by apply elem_of_nil in Hp].
    apply window_positions_elem in Hp. lia.
  - unfold code_cells_vertical in Hp.
    apply list_elem_of_bind in Hp as (y & Hp & Hy).
    apply list_elem_of_bind in Hp as (x & Hp & Hx).
    apply elem_of_seqZ in Hy, Hx.
    destruct (_can_place_ship self x y sz false); [|by apply elem_of_nil in Hp].
    apply window_positions_elem in Hp. lia.
Qed.

Lemma grid_get_zeros n (c : cell) :
  in_board n c → grid_get (grid_zeros n) c.2 c.1 = Some 0%nat.
Proof.
  intros [[? ?] [? ?]]. unfold grid_get, grid_zeros.
  rewrite bool_decide_eq_true_2 by lia.
  rewrite lookup_replicate_2 by lia. simpl.
  by rewrite lookup_replicate_2 by lia.
Qed.

(** The entry of the recomputed heat map at a cell of the board is the
    number of times the accepted windows of the code cover it. *)
Lemma computed_heat_map_occurrences self (c : cell) :
  in_board (board_size self) c →
  grid_get (computed_heat_map self) c.2 c.1 =
    Some (occurrences c (code_cells self)).
Proof.
  intros Hc. rewrite computed_heat_map_cells.
  rewrite grid_get_apply_cells by apply code_cells_nonneg.
  by rewrite grid_get_zeros.
Qed.

(** ** Counting lemmas *)

Lemma length_filter_bind {A B} (P : B → Prop) `{∀ b, Decision (P b)}
    (f : A → list B) (l : list A) :
  length (filter P (l ≫= f)) = sum_list_with (λ a, length (filter P (f a))) l.
Proof.
  induction l as [|a l IH]; [done|].
  rewrite bind_cons, filter_app, length_app. simpl. by rewrite IH.
Qed.

Lemma occurrences_bind {A} c (f : A → list cell) (l : list A) :
  occurrences c (l ≫= f) = sum_list_with (λ a, occurrences c (f a)) l.
Proof. apply length_filter_bind. Qed.

Lemma occurrences_NoDup c cs :
  NoDup cs → occurrences c cs = if decide (c ∈ cs) then 1%nat else 0%nat.
Proof.
  unfold occurrences. induction 1 as [|p cs Hp Hnd IH]; [done|].
  rewrite filter_cons. destruct (decide (p = c)) as [->|Hne].
  - rewrite decide_True by left. simpl. rewrite IH.
    by rewrite decide_False.
  - rewrite IH. destruct (decide (c ∈ cs)).
    + rewrite decide_True; [done|by right].
    + rewrite decide_False; [done|].
      intros [->|?]%elem_of_cons; done.
Qed.

Lemma sum_list_with_ext {A} (f g : A → nat) l :
  (∀ a, a ∈ l → f a = g a) → sum_list_with f l = sum_list_with g l.
Proof.
  induction l as [|a l IH]; intros Hfg; [done|].
  simpl. rewrite Hfg by left. rewrite IH; [done|].
  intros b Hb. apply Hfg. by right.
Qed.

Lemma sum_list_with_zero {A} (f : A → nat) l :
  (∀ a, a ∈ l → f a = 0%nat) → sum_list_with f l = 0%nat.
Proof.
  intros Hf. rewrite (sum_list_with_ext f (λ _, 0%nat)) by done.
  induction l; simpl; [done|].
  apply IHl. intros b Hb. apply Hf. by right.
Qed.

(** A sum over [range(b)] may stop at [a] when the terms from [a] on
    vanish. *)
Lemma sum_range_cut (f : Z → nat) a b :
  a ≤ b → (∀ i, 0 ≤ i < b → a ≤ i → f i = 0%nat) →
  sum_list_with f (pyrange b) = sum_list_with f (pyrange a).
Proof.
  intros Hab Hz. unfold pyrange.
  destruct (decide (a ≤ 0)) as [Ha|Ha].
  - rewrite (seqZ_nil 0 a) by done. simpl.
    apply sum_list_with_zero. intros i Hi%elem_of_seqZ. apply Hz; lia.
  - replace b with (a + (b - a)) at 1 by lia.
    rewrite seqZ_app by lia. rewrite sum_list_with_app.
    rewrite (sum_list_with_zero f (seqZ (0 + a) (b - a))); [lia|].
    intros i Hi%elem_of_seqZ. apply Hz; lia.
Qed.

Lemma sum_range_change (f g : Z → nat) a b :
  (∀ i, 0 ≤ i → i < a → i < b → f i = g i) →
  (∀ i, 0 ≤ i → i < a → b ≤ i → f i = 0%nat) →
  (∀ i, 0 ≤ i → i < b → a ≤ i → g i = 0%nat) →
  sum_list_with f (pyrange a) = sum_list_with g (pyrange b).
Proof.
  intros Hfg Hf Hg.
  rewrite (sum_range_cut f (Z.min a b) a) by (try intros; try apply Hf; lia).
  rewrite (sum_range_cut g (Z.min a b) b) by (try intros; try apply Hg; lia).
  apply sum_list_with_ext. intros i Hi%elem_of_seqZ. apply Hfg; lia.
Qed.

(** ** Sorted coordinates: first and last element are the extrema *)

Lemma foldr_max_spec d (l : list Z) :
  foldr Z.max d l ∈ d :: l ∧ ∀ x, x ∈ d :: l → x ≤ foldr Z.max d l.
Proof.
  induction l as [|b l [IH1 IH2]]; simpl.
  - split; [left|]. by intros x ->%list_elem_of_singleton.
  - split.
    + destruct (Z.max_spec b (foldr Z.max d l)) as [[? ->]|[? ->]].
      * apply elem_of_cons in IH1 as [->|?]; [left|right; by right].
      * right. left.
    + intros x [->|[->|Hx]%elem_of_cons]%elem_of_cons.
      * specialize (IH2 d (list_elem_of_here _ _)). lia.
      * lia.
      * specialize (IH2 x (list_elem_of_further _ _ _ Hx)). lia.
Qed.

Lemma foldr_min_spec d (l : list Z) :
  foldr Z.min d l ∈ d :: l ∧ ∀ x, x ∈ d :: l → foldr Z.min d l ≤ x.
Proof.
  induction l as [|b l [IH1 IH2]]; simpl.
  - split; [left|]. by intros x ->%list_elem_of_singleton.
  - split.
    + destruct (Z.min_spec b (foldr Z.min d l)) as [[? ->]|[? ->]].
      * right. left.
      * apply elem_of_cons in IH1 as [->|?]; [left|right; by right].
    + intros x [->|[->|Hx]%elem_of_cons]%elem_of_cons.
      * specialize (IH2 d (list_elem_of_here _ _)). lia.
      * lia.
      * specialize (IH2 x (list_elem_of_further _ _ _ Hx)). lia.
Qed.

Lemma span_max_spec (l : list Z) :
  l ≠ [] → span_max l ∈ l ∧ ∀ x, x ∈ l → x ≤ span_max l.
Proof.
  destruct l as [|a l]; [done|]. intros _. unfold span_max.
  simpl head. simpl default.
  destruct (foldr_max_spec a (a :: l)) as [H1 H2]. split.
  - apply elem_of_cons in H1 as [->|?]; [left|done].
  - intros x Hx. apply H2. by right.
Qed.

Lemma span_min_spec (l : list Z) :
  l ≠ [] → span_min l ∈ l ∧ ∀ x, x ∈ l → span_min l ≤ x.
Proof.
  destruct l as [|a l]; [done|]. intros _. unfold span_min.
  simpl head. simpl default.
  destruct (foldr_min_spec a (a :: l)) as [H1 H2]. split.
  - apply elem_of_cons in H1 as [->|?]; [left|done].
  - intros x Hx. apply H2. by right.
Qed.

Lemma sorted_head_spec (l : list Z) :
  StronglySorted Z.le l → l ≠ [] →
  ∃ a, head l = Some a ∧ a ∈ l ∧ ∀ x, x ∈ l → a ≤ x.
Proof.
  intros Hs Hne. destruct l as [|a l]; [done|]. exists a.
  split; [done|]. split; [left|].
  apply StronglySorted_cons in Hs as [Hall _].
  rewrite Forall_forall in Hall.
  intros x [->|Hx]%elem_of_cons; [lia|by apply Hall].
Qed.

Lemma sorted_last_spec (l : list Z) :
  StronglySorted Z.le l → l ≠ [] →
  ∃ b, last l = Some b ∧ b ∈ l ∧ ∀ x, x ∈ l → x ≤ b.
Proof.
  induction 1 as [|a l Hs IH Hall]; [done|]. intros _.
  destruct l as [|a' l].
  - exists a. split; [done|]. split; [left|].
    by intros x ->%list_elem_of_singleton.
  - destruct IH as (b & Hb & Hbl & Hmax); [done|].
    exists b. split; [done|]. split; [by right|].
    rewrite Forall_forall in Hall.
    intros x [->|Hx]%elem_of_cons; [|by apply Hmax].
    by apply Hall.
Qed.

Lemma py_sorted_extrema (l : list Z) :
  l ≠ [] →
  default 0 (last (py_sorted l)) = span_max l
  ∧ default 0 (head (py_sorted l)) = span_min l
  ∧ length (py_sorted l) = length l.
Proof.
  intros Hne. unfold py_sorted.
  pose proof (merge_sort_Permutation Z.le l) as Hperm.
  assert (Hs : StronglySorted Z.le (merge_sort Z.le l)).
  { apply StronglySorted_merge_sort; apply _. }
  assert (Hne' : merge_sort Z.le l ≠ []).
  { intros Hnil. rewrite Hnil in Hperm.
    by apply Permutation_nil_l in Hperm. }
  destruct (sorted_head_spec _ Hs Hne') as (a & -> & Ha & Hamin).
  destruct (sorted_last_spec _ Hs Hne') as (b & -> & Hb & Hbmax).
  destruct (span_max_spec l Hne) as [Hmx1 Hmx2].
  destruct (span_min_spec l Hne) as [Hmn1 Hmn2].
  simpl. split; [|split].
  - apply Z.le_antisymm.
    + apply Hmx2. by rewrite <- Hperm.
    + apply Hbmax. by rewrite Hperm.
  - apply Z.le_antisymm.
    + apply Hamin. by rewrite Hperm.
    + apply Hmn2. by rewrite <- Hperm.
  - by rewrite Hperm.
Qed.

(** ** [_can_place_ship] against the window rule of the specification *)

Lemma positions_clear_spec n ms ps :
  positions_clear n ms ps = true ↔
    Forall (λ p : cell, ¬ (n ≤ p.1 ∨ n ≤ p.2) ∧ p ∉ ms) ps.
Proof.
  induction ps as [|p ps IH]; simpl.
  - split; [constructor|done].
  - rewrite Forall_cons, <- IH.
    repeat case_bool_decide; intuition congruence.
Qed.

Lemma axis_coord_fmap (horizontal : bool) (l : list cell) :
  (if horizontal then @fst Z Z else @snd Z Z) <$> l
  = axis_coord horizontal <$> l.
Proof. by destruct horizontal. Qed.

Lemma can_place_ship_spec self x y sz horizontal :
  Forall (in_board (board_size self)) (window_positions x y sz horizontal) →
  _can_place_ship self x y sz horizontal =
    bool_decide (¬ spec_window_rejected self
                     (window_positions x y sz horizontal) horizontal).
Proof.
  intros Hin. unfold _can_place_ship, spec_window_rejected.
  set (w := window_positions x y sz horizontal) in *.
  set (hs := filter (λ p, p ∈ hits self) w).
  assert (Hout : ¬ Exists (λ p, ¬ in_board (board_size self) p) w).
  { rewrite <- Forall_Exists_neg.
    eapply Forall_impl; [exact Hin|]. tauto. }
  destruct (positions_clear _ _ w) eqn:Hclear; simpl.
  - apply positions_clear_spec in Hclear.
    assert (Hmiss : ¬ Exists (λ p, p ∈ misses self) w).
    { rewrite <- Forall_Exists_neg.
      eapply Forall_impl; [exact Hclear|]. simpl. tauto. }
    rewrite axis_coord_fmap.
    destruct (decide (1 < length hs)%nat) as [Hlen|Hlen].
    + rewrite (bool_decide_eq_true_2 (0 < length hs)%nat) by lia.
      rewrite (bool_decide_eq_true_2 (1 < length hs)%nat) by done.
      assert (Hne : axis_coord horizontal <$> hs ≠ []).
      { intros Hnil%fmap_nil_inv. rewrite Hnil in Hlen. simpl in Hlen. lia. }
      destruct (py_sorted_extrema _ Hne) as (-> & -> & ->).
      rewrite length_fmap.
      case_bool_decide as Hspan.
      * symmetry. apply bool_decide_eq_false_2. intros Hrej. apply Hrej.
        right. right. split; [lia|done].
      * symmetry. apply bool_decide_eq_true_2.
        intros [?|[?|[_ ?]]]; done.
    + assert (Hacc : ¬ (Exists (λ p, ¬ in_board (board_size self) p) w
                ∨ Exists (λ p, p ∈ misses self) w
                ∨ (1 ≤ length hs)%nat
                  ∧ span_max (axis_coord horizontal <$> hs)
                    - span_min (axis_coord horizontal <$> hs)
                    ≠ Z.of_nat (length hs) - 1)).
      { intros [?|[?|[Hge Hspan]]]; [done|done|].
        apply Hspan. destruct hs as [|h [|h' hs']]; simpl in *; [lia| |lia].
        unfold span_max, span_min. simpl. lia. }
      rewrite (bool_decide_eq_true_2 _ Hacc).
      case_bool_decide; [|done].
      by rewrite (bool_decide_eq_false_2 (1 < length hs)%nat).
  - symmetry. apply bool_decide_eq_false_2. intros Hacc. apply Hacc.
    right. left.
    apply not_true_iff_false in Hclear.
    rewrite positions_clear_spec in Hclear.
    apply not_Forall_Exists in Hclear; [|apply _].
    apply Exists_exists in Hclear as (p & Hpw & Hp).
    apply Exists_exists. exists p. split; [done|].
    destruct (decide (p ∈ misses self)); [done|].
    exfalso. apply Hp. split; [|done].
    rewrite Forall_forall in Hin.
    destruct (Hin p Hpw) as [[? ?] [? ?]]. lia.
Qed.

(** ** The code's loops against the specification's sum *)

Definition code_term (self : BaseAI) (c : cell) (L : Z) (horizontal : bool)
    (x y : Z) : nat :=
  occurrences c (if _can_place_ship self x y L horizontal
                 then window_positions x y L horizontal else []).

Definition spec_term (self : BaseAI) (c : cell) (L : Z) (horizontal : bool)
    (x y : Z) : nat :=
  length (filter (λ w, ¬ spec_window_rejected self (spec_window_cells w) w.1.2
                       ∧ c ∈ spec_window_cells w)
            [(L, horizontal, (x, y))]).

Lemma spec_term_unfold self c L horizontal x y :
  spec_term self c L horizontal x y =
    if decide (¬ spec_window_rejected self
                   (window_positions x y L horizontal) horizontal
               ∧ c ∈ window_positions x y L horizontal)
    then 1%nat else 0%nat.
Proof.
  unfold spec_term. rewrite filter_cons, filter_nil.
  unfold spec_window_cells. simpl.
  by destruct (decide _).
Qed.

Lemma code_term_unfold self c L horizontal x y :
  code_term self c L horizontal x y =
    if decide (_can_place_ship self x y L horizontal = true
               ∧ c ∈ window_positions x y L horizontal)
    then 1%nat else 0%nat.
Proof.
  unfold code_term. destruct (_can_place_ship self x y L horizontal).
  - rewrite occurrences_NoDup by apply window_positions_NoDup.
    destruct (decide (c ∈ _)).
    + by rewrite decide_True.
    + rewrite decide_False; [done|tauto].
  - rewrite decide_False; [done|]. by intros [? _].
Qed.

Lemma term_agree self c L horizontal x y :
  Forall (in_board (board_size self)) (window_positions x y L horizontal) →
  code_term self c L horizontal x y = spec_term self c L horizontal x y.
Proof.
  intros Hin. rewrite code_term_unfold, spec_term_unfold.
  rewrite (can_place_ship_spec _ _ _ _ _ Hin).
  destruct (decide (¬ _ ∧ _)) as [[Hacc Hc]|Hno].
  - rewrite decide_True; [done|]. split; [|done].
    by apply bool_decide_eq_true_2.
  - rewrite decide_False; [done|]. intros [Hacc%bool_decide_eq_true_1 Hc].
    by apply Hno.
Qed.

Lemma code_term_empty self c L horizontal x y :
  L ≤ 0 → code_term self c L horizontal x y = 0%nat.
Proof.
  intros HL. rewrite code_term_unfold. rewrite decide_False; [done|].
  intros [_ Hc]. unfold window_positions, pyrange in Hc.
  rewrite seqZ_nil in Hc by done. by apply elem_of_nil in Hc.
Qed.

Lemma spec_term_outside self c L horizontal x y (p : cell) :
  p ∈ window_positions x y L horizontal →
  ¬ in_board (board_size self) p →
  spec_term self c L horizontal x y = 0%nat.
Proof.
  intros Hp Hout. rewrite spec_term_unfold. rewrite decide_False; [done|].
  intros [Hacc _]. apply Hacc. left. apply Exists_exists. by exists p.
Qed.

Lemma horizontal_sum_agree self c L :
  occurrences c (code_cells_horizontal self L) =
    sum_list_with (λ y, sum_list_with (λ x, spec_term self c L true x y)
                          (pyrange (board_size self)))
      (pyrange (board_size self)).
Proof.
  unfold code_cells_horizontal. rewrite occurrences_bind.
  apply sum_list_with_ext. intros y Hy%elem_of_seqZ.
  rewrite occurrences_bind.
  apply (sum_range_change (λ x, code_term self c L true x y)
           (λ x, spec_term self c L true x y)).
  - intros x Hx0 Hx1 Hx2. apply term_agree.
    apply Forall_forall. intros p Hp%window_positions_elem.
    unfold in_board. lia.
  - intros x Hx0 Hx1 Hx2. apply code_term_empty. lia.
  - intros x Hx0 Hx1 Hx2.
    apply (spec_term_outside _ _ _ _ _ _ (x + L - 1, y)).
    + apply window_positions_elem. simpl. lia.
    + unfold in_board. simpl. lia.
Qed.

Lemma vertical_sum_agree self c L :
  occurrences c (code_cells_vertical self L) =
    sum_list_with (λ y, sum_list_with (λ x, spec_term self c L false x y)
                          (pyrange (board_size self)))
      (pyrange (board_size self)).
Proof.
  unfold code_cells_vertical. rewrite occurrences_bind.
  apply (sum_range_change
           (λ y, occurrences c (pyrange (board_size self) ≫= _))
           (λ y, sum_list_with _ (pyrange (board_size self)))).
  - intros y Hy0 Hy1 Hy2. rewrite occurrences_bind.
    apply sum_list_with_ext. intros x Hx%elem_of_seqZ.
    apply (term_agree self c L false x y).
    apply Forall_forall. intros p Hp%window_positions_elem.
    unfold in_board. lia.
  - intros y Hy0 Hy1 Hy2. rewrite occurrences_bind.
    apply sum_list_with_zero. intros x _.
    apply (code_term_empty self c L false x y). lia.
  - intros y Hy0 Hy1 Hy2.
    apply sum_list_with_zero. intros x _.
    apply (spec_term_outside _ _ _ _ _ _ (x, y + L - 1)).
    + apply window_positions_elem. simpl. lia.
    + unfold in_board. simpl. lia.
Qed.

Lemma spec_score_sum self c :
  spec_score self c =
    sum_list_with (λ L,
      (sum_list_with (λ y, sum_list_with (λ x, spec_term self c L true x y)
                             (pyrange (board_size self)))
         (pyrange (board_size self))
       + sum_list_with (λ y, sum_list_with (λ x, spec_term self c L false x y)
                               (pyrange (board_size self)))
           (pyrange (board_size self)))%nat)
      (remaining_ship_sizes self).
Proof.
  unfold spec_score, spec_windows. rewrite length_filter_bind.
  apply sum_list_with_ext. intros L _.
  rewrite length_filter_bind. simpl.
  rewrite !length_filter_bind. rewrite Nat.add_0_r.
  f_equal; apply sum_list_with_ext; intros y _;
    rewrite length_filter_bind; by apply sum_list_with_ext.
Qed.

(** C6.  After [_update_heat_map], the heat-map entry of every cell of the
    board equals the number of accepted placement windows covering it,
    summed over every remaining ship length and both orientations, where a
    window is rejected exactly when it leaves the board, contains a known
    miss, or its hit cells are not contiguous along the placement axis
    (max - min differs from count - 1). *)
Theorem heat_map_counts_accepted_windows (self : BaseAI) (c : cell) :
  in_board (board_size self) c →
  grid_get (heat_map (_update_heat_map self)) c.2 c.1
  = Some (spec_score self c).
Proof.
  intros Hc. simpl. rewrite (computed_heat_map_occurrences _ _ Hc). f_equal.
  rewrite spec_score_sum. unfold code_cells. rewrite occurrences_bind.
  apply sum_list_with_ext. intros L _.
  by rewrite occurrences_app, horizontal_sum_agree, vertical_sum_agree.
Qed.

Lemma heat_map_counts_accepted_windows_witness :
  in_board 10 (0, 0)
  ∧ grid_get (heat_map (_update_heat_map (BaseAI_init 10))) 0 0
    = Some (spec_score (BaseAI_init 10) (0, 0)).
Proof.
  split.
  - unfold in_board. simpl. lia.
  - apply (heat_map_counts_accepted_windows (BaseAI_init 10) (0, 0)).
    unfold in_board. simpl. lia.
Defined.

(** ** Shot cells in the heat map *)

Lemma can_place_ship_no_miss self x y sz horizontal (c : cell) :
  _can_place_ship self x y sz horizontal = true →
  c ∈ window_positions x y sz horizontal → c ∉ misses self.
Proof.
  unfold _can_place_ship. intros Hcp Hc.
  destruct (positions_clear _ _ _) eqn:Hclear; [|done].
  apply positions_clear_spec in Hclear. rewrite Forall_forall in Hclear.
  by destruct (Hclear c Hc).
Qed.

Lemma code_term_miss self c L horizontal x y :
  c ∈ misses self → code_term self c L horizontal x y = 0%nat.
Proof.
  intros Hmiss. rewrite code_term_unfold. rewrite decide_False; [done|].
  intros [Hcp Hc]. by eapply can_place_ship_no_miss.
Qed.

(** C1 (as amended).  After every recomputation of the heat map, every
    recorded miss on the board has score 0: a window containing a miss is
    never accepted.  (Hit cells are not zeroed, see
    [hit_cell_keeps_positive_score].) *)
Theorem miss_cells_have_zero_score (self : BaseAI) (c : cell) :
  c ∈ misses self → in_board (board_size self) c →
  grid_get (heat_map (_update_heat_map self)) c.2 c.1 = Some 0%nat.
Proof.
  intros Hmiss Hc. simpl. rewrite (computed_heat_map_occurrences _ _ Hc).
  f_equal. unfold code_cells. rewrite occurrences_bind.
  apply sum_list_with_zero. intros L _. rewrite occurrences_app.
  unfold code_cells_horizontal, code_cells_vertical.
  rewrite !occurrences_bind.
  rewrite !sum_list_with_zero; [done| |];
    intros y _; rewrite occurrences_bind;
    apply sum_list_with_zero; intros x _;
    by apply (code_term_miss self c L _ x y).
Qed.

Definition one_miss : BaseAI :=
  set_misses (BaseAI_init 10) [(3, 4)].

Lemma miss_cells_have_zero_score_witness :
  grid_get (heat_map (_update_heat_map one_miss)) 4 3 = Some 0%nat.
Proof.
  apply (miss_cells_have_zero_score one_miss (3, 4)).
  - simpl. apply list_elem_of_here.
  - unfold in_board. simpl. lia.
Defined.

(** C1 fails as stated: after a single recorded hit at (0,0) on a fresh
    10x10 board the cell (0,0) is in [shots_fired] and its recomputed
    score is 10. *)
Lemma hit_cell_keeps_positive_score :
  ¬ (∀ st, reachable 10 st → ∀ c, c ∈ shots_fired st →
       grid_get (heat_map st) c.2 c.1 = Some 0%nat).
Proof.
  intros Hclaim.
  destruct (update_after_guess (BaseAI_init 10) 0 0 true false None)
    as [st| |] eqn:Hst; [|by vm_compute in Hst..].
  assert (Hreach : reachable 10 st).
  { eapply reachable_step; [apply reachable_init|exact Hst]. }
  specialize (Hclaim st Hreach (0, 0)).
  vm_compute in Hst. injection Hst as <-.
  simpl in Hclaim. specialize (Hclaim (list_elem_of_here _ _)).
  vm_compute in Hclaim. discriminate Hclaim.
Qed.

#[local] Set Warnings "-clear-no-such-hyp".

(** * Properties of [update_after_guess] *)

Lemma res_bind_Ok {A B} (a : A) (k : A → res B) : Ok a ≫= k = k a.
Proof. done. Qed.

(** ** [list.remove] *)

Lemma py_remove_Ok {A} `{EqDecision A} (x : A) (l : list A) :
  x ∈ l → ∃ l', py_remove x l = Ok l' ∧ l ≡ₚ x :: l'
                ∧ (∀ y, y ≠ x → y ∈ l' ↔ y ∈ l)
                ∧ (NoDup l → NoDup l' ∧ x ∉ l').
Proof.
  induction l as [|y l IH]; intros Hx; [by apply elem_of_nil in Hx|].
  simpl. destruct (decide (x = y)) as [->|Hne].
  - exists l. split; [done|]. split; [done|]. split.
    + intros z Hz. rewrite elem_of_cons. split; [tauto|]. by intros [?|?].
    + intros [? ?]%NoDup_cons. done.
  - apply elem_of_cons in Hx as [?|Hx]; [done|].
    destruct (IH Hx) as (l' & -> & Hperm & Hmem & Hnd). simpl.
    exists (y :: l'). split; [done|]. split; [|split].
    + rewrite Hperm. apply Permutation_swap.
    + intros z Hz. rewrite !elem_of_cons. rewrite (Hmem z Hz). done.
    + intros [Hy Hl]%NoDup_cons. destruct (Hnd Hl) as [Hnd' Hx'].
      split.
      * apply NoDup_cons. split; [|done].
        intros Hy'. apply Hy. by apply Hmem.
      * rewrite elem_of_cons. intros [?|?]; done.
Qed.

(** The guarded removal [if x in l: l.remove(x)]. *)
Definition remove_guarded {A} `{EqDecision A} (x : A) (l : list A)
  : res (list A) :=
  if bool_decide (x ∈ l) then py_remove x l else Ok l.

Lemma remove_guarded_Ok {A} `{EqDecision A} (x : A) (l : list A) :
  ∃ l', remove_guarded x l = Ok l'
        ∧ (∀ y, y ≠ x → y ∈ l' ↔ y ∈ l)
        ∧ (∀ y, y ∈ l' → y ∈ l)
        ∧ (NoDup l → NoDup l' ∧ x ∉ l').
Proof.
  unfold remove_guarded. case_bool_decide as Hx.
  - destruct (py_remove_Ok x l Hx) as (l' & -> & Hperm & Hmem & Hnd).
    exists l'. split; [done|]. split; [done|]. split; [|done].
    intros y Hy. rewrite Hperm. by right.
  - exists l. split; [done|]. split; [done|]. split; [done|]. done.
Qed.

Lemma size_list_to_set_length (l : list cell) :
  (size (list_to_set l : gset cell) ≤ length l)%nat.
Proof.
  induction l as [|a l IH].
  - by rewrite list_to_set_nil, size_empty.
  - rewrite list_to_set_cons. simpl length.
    rewrite size_union_alt, size_singleton.
    assert (size (list_to_set l ∖ {[a]} : gset cell)
            ≤ size (list_to_set l : gset cell))%nat.
    { apply subseteq_size. apply subseteq_difference_l. done. }
    lia.
Qed.

(** ** [_find_ship_from_last_hit]: termination *)

Section find_ship.
Context (self : BaseAI) (sz : Z).

Let Hits : gset cell := list_to_set (hits self).
Let n : Z := board_size self.

Definition fresh_cells (visited : gset cell) (c : cell) : list cell :=
filter (λ p, in_board (board_size self) p ∧ p ∉ visited)
  (shift c <$> orthogonal_steps).

Lemma fresh_cells_length visited c : (length (fresh_cells visited c) ≤ 4)%nat.
Proof.
unfold fresh_cells.
etrans; [apply length_filter|]. by rewrite length_fmap.
Qed.

Lemma size_hits_bound : (size Hits ≤ length (hits self))%nat.
Proof. apply size_list_to_set_length. Qed.

(** Remaining work: four units per hit cell not yet visited, one per
  queued cell. *)
Definition work (visited : gset cell) (queue : list cell) : nat :=
(4 * size (Hits ∖ visited) + length queue)%nat.

Lemma work_visit_hit visited c :
c ∉ visited → c ∈ hits self →
(size (Hits ∖ ({[c]} ∪ visited)) + 1 = size (Hits ∖ visited))%nat.
Proof.
intros Hv Hc.
assert (Heq : Hits ∖ visited = {[c]} ∪ Hits ∖ ({[c]} ∪ visited)).
{ apply set_eq. intros p. subst Hits.
  rewrite elem_of_union, !elem_of_difference, elem_of_union,
    elem_of_singleton, elem_of_list_to_set.
  split.
  - intros [? ?]. destruct (decide (p = c)); [by left|right]. tauto.
  - intros [->|[? ?]]; [done|]. tauto. }
rewrite Heq.
rewrite (size_union {[c]} (Hits ∖ ({[c]} ∪ visited))) by set_solver.
rewrite size_singleton. lia.
Qed.

Lemma work_visit_other visited c :
c ∉ hits self → Hits ∖ ({[c]} ∪ visited) = Hits ∖ visited.
Proof.
intros Hc. apply set_eq. intros p. subst Hits.
rewrite !elem_of_difference, elem_of_union, elem_of_singleton,
  elem_of_list_to_set.
split; [tauto|]. intros [? ?]. split; [done|].
intros [->|?]; done.
Qed.

Lemma find_ship_loop_S fuel visited queue ship :
find_ship_loop (S fuel) self sz visited queue ship =
  match queue with
  | [] => Ok ship
  | c :: queue' =>
      if bool_decide (Z.of_nat (length ship) < sz) then
        if bool_decide (c ∈ visited) then
          find_ship_loop fuel self sz visited queue' ship
        else if bool_decide (c ∈ hits self) then
          find_ship_loop fuel self sz ({[c]} ∪ visited)
            (queue' ++ fresh_cells ({[c]} ∪ visited) c) (ship ++ [c])
        else find_ship_loop fuel self sz ({[c]} ∪ visited) queue' ship
      else Ok ship
  end.
Proof. done. Qed.

Lemma find_ship_loop_terminates fuel visited queue ship :
(work visited queue < fuel)%nat →
∃ r, find_ship_loop fuel self sz visited queue ship = Ok r.
Proof.
revert visited queue ship.
induction fuel as [|fuel IH]; intros visited queue ship Hw; [lia|].
rewrite find_ship_loop_S. destruct queue as [|c queue]; [by eexists|].
case_bool_decide; [|by eexists].
unfold work in Hw. rewrite length_cons in Hw.
case_bool_decide as Hv.
- apply IH. unfold work. lia.
- case_bool_decide as Hc.
  + apply IH. unfold work. rewrite length_app.
    pose proof (work_visit_hit visited c Hv Hc).
    pose proof (fresh_cells_length ({[c]} ∪ visited) c) as Hf.
    lia.
  + apply IH. unfold work. rewrite work_visit_other by done. lia.
Qed.

Lemma find_ship_from_last_hit_terminates x y :
∃ r, find_ship_loop (find_ship_fuel self) self sz ∅ [(x, y)] [] = Ok r.
Proof.
apply find_ship_loop_terminates. unfold work, find_ship_fuel. simpl.
rewrite difference_empty_L. pose proof size_hits_bound. lia.
Qed.
End find_ship.

(** ** [_find_ship_from_last_hit]: what the traversal collects *)

Section find_ship_invariant.
Context (self : BaseAI) (sz : Z) (start : cell).

Let n : Z := board_size self.
Let hs : list cell := hits self.

(** Invariant of the [while] loop. *)
Definition bfs_inv (visited : gset cell) (queue ship : list cell) : Prop :=
NoDup ship
∧ (∀ c, c ∈ ship → c ∈ visited ∧ connected n hs start c)
∧ (∀ q, q ∈ queue → q ∈ hs → connected n hs start q)
∧ (start ∈ visited ∨ start ∈ queue)
∧ (∀ c, c ∈ visited → c ∈ hs →
     c ∈ ship
     ∧ ∀ d, d ∈ orthogonal_steps → in_board n (shift c d) →
            shift c d ∈ visited ∨ shift c d ∈ queue)
∧ (0 ≤ sz → Z.of_nat (length ship) ≤ sz).

Lemma bfs_inv_init : bfs_inv ∅ [start] [].
Proof.
repeat split.
- constructor.
- by apply elem_of_nil in H.
- by apply elem_of_nil in H.
- intros q ->%list_elem_of_singleton Hq. by constructor.
- right. left.
- by apply elem_of_empty in H.
- by apply elem_of_empty in H.
- simpl. lia.
Qed.

Lemma elem_of_fresh_cells visited c p :
p ∈ fresh_cells self visited c ↔
  (∃ d, d ∈ orthogonal_steps ∧ p = shift c d)
  ∧ in_board n p ∧ p ∉ visited.
Proof.
unfold fresh_cells. rewrite list_elem_of_filter, list_elem_of_fmap.
split.
- intros [[? ?] (d & -> & ?)]. split; [by exists d|done].
- intros [(d & ? & ->) [? ?]]. split; [done|by exists d].
Qed.

Lemma bfs_inv_skip visited c queue ship :
c ∈ visited → bfs_inv visited (c :: queue) ship →
bfs_inv visited queue ship.
Proof.
intros Hv (Hnd & Hship & Hq & Hstart & Hclosed & Hlen).
split; [done|]. split; [done|]. split.
{ intros q Hin. apply Hq. by right. }
split.
{ destruct Hstart as [?|[->|?]%elem_of_cons]; auto. }
split; [|done].
intros v Hvv Hvh. destruct (Hclosed v Hvv Hvh) as [? Hnb].
split; [done|]. intros d Hd Hb.
destruct (Hnb d Hd Hb) as [?|[->|?]%elem_of_cons]; auto.
Qed.

Lemma bfs_inv_miss visited c queue ship :
c ∉ hs → bfs_inv visited (c :: queue) ship →
bfs_inv ({[c]} ∪ visited) queue ship.
Proof.
intros Hc (Hnd & Hship & Hq & Hstart & Hclosed & Hlen).
split; [done|]. split.
{ intros v Hv. destruct (Hship v Hv). split; [set_solver|done]. }
split.
{ intros q Hin. apply Hq. by right. }
split.
{ destruct Hstart as [?|[->|?]%elem_of_cons]; [left|left|right];
    set_solver. }
split; [|done].
intros v [->%elem_of_singleton|Hvv]%elem_of_union Hvh; [done|].
destruct (Hclosed v Hvv Hvh) as [? Hnb].
split; [done|]. intros d Hd Hb.
destruct (Hnb d Hd Hb) as [?|[->|?]%elem_of_cons];
  [left|left|right]; set_solver.
Qed.

Lemma bfs_inv_hit visited c queue ship :
c ∉ visited → c ∈ hs → Z.of_nat (length ship) < sz →
bfs_inv visited (c :: queue) ship →
bfs_inv ({[c]} ∪ visited)
  (queue ++ fresh_cells self ({[c]} ∪ visited) c) (ship ++ [c]).
Proof.
intros Hv Hc Hlt (Hnd & Hship & Hq & Hstart & Hclosed & Hlen).
assert (Hconn : connected n hs start c).
{ apply Hq; [left|done]. }
split.
{ apply NoDup_app. split; [done|]. split; [|apply NoDup_singleton].
  intros v Hvs ->%list_elem_of_singleton.
  by destruct (Hship c Hvs). }
split.
{ intros v [Hvs| ->%list_elem_of_singleton]%elem_of_app.
  - destruct (Hship v Hvs). split; [set_solver|done].
  - split; [set_solver|done]. }
split.
{ intros q [Hin|Hin]%elem_of_app Hqh.
  - apply Hq; [by right|done].
  - apply elem_of_fresh_cells in Hin as [(d & Hd & ->) [Hb _]].
    by apply connected_step. }
split.
{ destruct Hstart as [?|[->|?]%elem_of_cons].
  - left. set_solver.
  - left. set_solver.
  - right. apply elem_of_app. by left. }
split.
{ intros v [->%elem_of_singleton|Hvv]%elem_of_union Hvh.
  - split; [apply elem_of_app; right; left|].
    intros d Hd Hb.
    destruct (decide (shift c d ∈ ({[c]} ∪ visited : gset cell)));
      [by left|right].
    apply elem_of_app. right. apply elem_of_fresh_cells.
    split; [by exists d|done].
  - destruct (Hclosed v Hvv Hvh) as [? Hnb].
    split; [apply elem_of_app; by left|]. intros d Hd Hb.
    destruct (Hnb d Hd Hb) as [?|[->|?]%elem_of_cons].
    + left. set_solver.
    + left. set_solver.
    + right. apply elem_of_app. by left. }
intros _. rewrite length_app. simpl. lia.
Qed.

Lemma bfs_inv_run fuel visited queue ship r :
bfs_inv visited queue ship →
find_ship_loop fuel self sz visited queue ship = Ok r →
∃ visited' queue',
  bfs_inv visited' queue' r
  ∧ (queue' = [] ∨ ¬ Z.of_nat (length r) < sz).
Proof.
revert visited queue ship.
induction fuel as [|fuel IH]; intros visited queue ship Hinv; [done|].
rewrite find_ship_loop_S. destruct queue as [|c queue].
{ intros [= <-]. exists visited, []. auto. }
case_bool_decide as Hlt.
2:{ intros [= <-]. exists visited, (c :: queue). auto. }
case_bool_decide as Hv.
{ apply IH. by eapply bfs_inv_skip. }
case_bool_decide as Hc.
- apply IH. by apply bfs_inv_hit.
- apply IH. by apply bfs_inv_miss.
Qed.

(** With the queue exhausted, every connected hit cell was collected. *)
Lemma bfs_inv_collects visited ship c :
bfs_inv visited [] ship → connected n hs start c →
c ∈ visited ∧ c ∈ ship.
Proof.
intros (Hnd & Hship & Hq & Hstart & Hclosed & Hlen).
induction 1 as [Hs|c d Hconn [IHv IHs] Hd Hh Hb].
- destruct Hstart as [Hsv|Hsq]; [|by apply elem_of_nil in Hsq].
  split; [done|]. by apply Hclosed.
- destruct (Hship c IHs) as [_ Hcc].
  assert (Hch : c ∈ hs).
  { clear -Hcc. by destruct Hcc. }
  destruct (Hclosed c IHv Hch) as [_ Hnb].
  destruct (Hnb d Hd Hb) as [Hvv|Hvq]; [|by apply elem_of_nil in Hvq].
  split; [done|]. by apply Hclosed.
Qed.
End find_ship_invariant.

Lemma find_ship_from_last_hit_spec self x y sz :
  ∃ r, _find_ship_from_last_hit self x y sz = Ok r
       ∧ NoDup r
       ∧ (∀ c, c ∈ r → connected (board_size self) (hits self) (x, y) c)
       ∧ (r = [] ∨ Z.of_nat (length r) = sz)
       ∧ (0 < sz →
          at_least_connected (board_size self) (hits self) (x, y) sz →
          Z.of_nat (length r) = sz)
       ∧ (fewer_connected (board_size self) (hits self) (x, y) sz → r = []).
Proof.
  unfold _find_ship_from_last_hit.
  destruct (find_ship_from_last_hit_terminates self sz x y) as [r Hr].
  rewrite Hr. simpl.
  destruct (bfs_inv_run self sz (x, y) _ _ _ _ _
              (bfs_inv_init self sz (x, y)) Hr)
    as (visited & queue & Hinv & Hstop).
  pose proof Hinv as (Hnd & Hship & _ & _ & _ & Hlen).
  case_bool_decide as Heq.
  - exists r. split; [done|]. split; [done|]. split.
    { intros c Hc. by destruct (Hship c Hc). }
    split; [by right|]. split; [done|].
    intros Hfew. specialize (Hfew r Hnd).
    assert (Z.of_nat (length r) < sz); [|lia].
    apply Hfew. intros c Hc. by destruct (Hship c Hc).
  - exists []. split; [done|]. split; [constructor|]. split.
    { intros c Hc. by apply elem_of_nil in Hc. }
    split; [by left|]. split; [|done].
    intros Hpos (cs & Hcs & Hge & Hconn). exfalso. apply Heq.
    assert (Hle : Z.of_nat (length r) ≤ sz) by (apply Hlen; lia).
    destruct Hstop as [->|Hstop]; [|lia].
    assert (Hsub : cs ⊆ r).
    { intros c Hc.
      by destruct (bfs_inv_collects self sz (x, y) _ _ c Hinv (Hconn c Hc)). }
    assert (length cs ≤ length r)%nat; [|lia].
    apply submseteq_length. by apply NoDup_submseteq.
Qed.

(** ** [_clear_adjacent_targets] *)

Lemma clear_target_Ok n (ts : list cell) p :
  clear_target n (Ok ts) p =
    if bool_decide (in_board n p ∧ p ∈ ts) then py_remove p ts else Ok ts.
Proof. done. Qed.

Lemma clear_target_fold n (l ts : list cell) :
  ∃ ts', foldl (clear_target n) (Ok ts) l = Ok ts'
         ∧ (∀ t, t ∈ ts' → t ∈ ts)
         ∧ (∀ t, t ∈ ts → t ∉ l → t ∈ ts')
         ∧ (NoDup ts →
            NoDup ts' ∧ ∀ t, t ∈ ts' → ¬ (in_board n t ∧ t ∈ l)).
Proof.
  revert ts. induction l as [|p l IH]; intros ts.
  { exists ts. simpl. split; [done|]. split; [done|]. split; [done|].
    intros Hnd. split; [done|]. intros t _ [_ Ht]. by apply elem_of_nil in Ht. }
  change (foldl (clear_target n) (Ok ts) (p :: l))
    with (foldl (clear_target n) (clear_target n (Ok ts) p) l).
  rewrite clear_target_Ok.
  pose proof (remove_guarded_Ok p ts) as (ts1 & H1 & Hne1 & Hsub1 & Hnd1).
  unfold remove_guarded in H1.
  destruct (bool_decide_reflect (in_board n p ∧ p ∈ ts)) as [Hin|Hin].
  - rewrite bool_decide_eq_true_2 in H1 by tauto. rewrite H1.
    destruct (IH ts1) as (ts' & -> & Hsub & Hkeep & Hnd).
    exists ts'. split; [done|]. split; [auto|]. split.
    { intros t Ht Hnl. apply Hkeep.
      - apply Hne1; [|done]. intros ->. apply Hnl. left.
      - intros ?. apply Hnl. by right. }
    intros Hndts. destruct (Hnd1 Hndts) as [Hndts1 Hp1].
    destruct (Hnd Hndts1) as [Hnd' Hout]. split; [done|].
    intros t Ht [Hb [->|Htl]%elem_of_cons].
    + apply Hp1. by apply Hsub.
    + by apply (Hout t Ht).
  - destruct (IH ts) as (ts' & -> & Hsub & Hkeep & Hnd).
    exists ts'. split; [done|]. split; [done|]. split.
    { intros t Ht Hnl. apply Hkeep; [done|]. intros ?. apply Hnl. by right. }
    intros Hndts. destruct (Hnd Hndts) as [Hnd' Hout]. split; [done|].
    intros t Ht [Hb [->|Htl]%elem_of_cons].
    + apply Hin. split; [done|]. by apply Hsub.
    + by apply (Hout t Ht).
Qed.

Lemma clear_adjacent_targets_spec self ps :
  ∃ ts, _clear_adjacent_targets self ps = Ok (set_possible_targets self ts)
        ∧ (∀ t, t ∈ ts → t ∈ possible_targets self)
        ∧ (∀ t, t ∈ possible_targets self →
             (∀ c d, c ∈ ps → d ∈ around_steps → t ≠ shift c d) → t ∈ ts)
        ∧ (NoDup (possible_targets self) →
           NoDup ts
           ∧ ∀ t c d, t ∈ ts → in_board (board_size self) t → c ∈ ps →
                      d ∈ around_steps → t ≠ shift c d).
Proof.
  unfold _clear_adjacent_targets.
  destruct (clear_target_fold (board_size self)
              (c ← ps; shift c <$> around_steps) (possible_targets self))
    as (ts & -> & Hsub & Hkeep & Hnd).
  exists ts. split; [done|]. split; [done|]. split.
  - intros t Ht Hfar. apply Hkeep; [done|].
    intros (c & (d & -> & Hd)%list_elem_of_fmap & Hc)%list_elem_of_bind.
    by apply (Hfar c d).
  - intros Hndts. destruct (Hnd Hndts) as [Hnd' Hout]. split; [done|].
    intros t c d Ht Hb Hc Hd ->. apply (Hout _ Ht). split; [done|].
    apply list_elem_of_bind. exists c. split; [|done].
    apply list_elem_of_fmap. by exists d.
Qed.

(** ** [update_after_guess] *)

(** The tail of [update_after_guess]: the guarded removal of the shot cell
    and the recomputation of the heat map. *)
Definition finish_update (x y : Z) (self : BaseAI) : res BaseAI :=
  ts ← (if bool_decide ((x, y) ∈ possible_targets self)
        then py_remove (x, y) (possible_targets self)
        else Ok (possible_targets self));
  Ok (_update_heat_map (set_possible_targets self ts)).

Lemma finish_update_spec x y self :
  ∃ ts, finish_update x y self
        = Ok (_update_heat_map (set_possible_targets self ts))
        ∧ (∀ t, t ≠ (x, y) → t ∈ ts ↔ t ∈ possible_targets self)
        ∧ (∀ t, t ∈ ts → t ∈ possible_targets self)
        ∧ (NoDup (possible_targets self) → NoDup ts ∧ (x, y) ∉ ts).
Proof.
  destruct (remove_guarded_Ok (x, y) (possible_targets self))
    as (ts & Hts & ?). exists ts. split; [|done].
  unfold finish_update. unfold remove_guarded in Hts. by rewrite Hts.
Qed.

Lemma update_after_guess_miss self x y is_sunk sunk_ship_size :
  update_after_guess self x y false is_sunk sunk_ship_size =
    finish_update x y
      (set_last_shot_result
         (set_misses (set_shots_fired self (shots_fired self ++ [(x, y)]))
            (misses self ++ [(x, y)]))
         (Some "miss"%string)).
Proof. done. Qed.

Lemma update_after_guess_hit self x y is_sunk sunk_ship_size :
  is_sunk && truthy sunk_ship_size = false →
  update_after_guess self x y true is_sunk sunk_ship_size =
    finish_update x y (with_hit self x y).
Proof. intros Hs. unfold update_after_guess. by rewrite Hs. Qed.

Lemma update_after_guess_sunk self x y L :
  L ≠ 0 →
  update_after_guess self x y true true (Some L) =
    record_sinking (with_hit self x y) x y L ≫= finish_update x y.
Proof.
  intros HL. unfold update_after_guess. simpl.
  destruct (Z.eqb_spec L 0); done.
Qed.

Lemma record_sinking_spec self x y L :
  ∃ found,
    _find_ship_from_last_hit self x y L = Ok found
    ∧ match found with
      | [] => record_sinking self x y L = Ok self
      | _ :: _ =>
          ∃ rem ts,
            record_sinking self x y L =
              Ok (set_possible_targets
                    (set_remaining_ship_sizes
                       (set_ships_sunk self
                          (ships_sunk self
                           ++ [ShipInfo.mk L found None true]))
                       rem)
                    ts)
            ∧ (if decide (L ∈ remaining_ship_sizes self)
               then remaining_ship_sizes self ≡ₚ L :: rem
               else rem = remaining_ship_sizes self)
            ∧ (∀ t, t ∈ ts → t ∈ possible_targets self)
            ∧ (NoDup (possible_targets self) →
               NoDup ts
               ∧ ∀ t c d, t ∈ ts → in_board (board_size self) t →
                          c ∈ found → d ∈ around_steps → t ≠ shift c d)
      end.
Proof.
  destruct (find_ship_from_last_hit_spec self x y L) as (found & Hf & _).
  exists found. split; [done|]. unfold record_sinking.
  rewrite Hf, res_bind_Ok.
  destruct found as [|c0 found]; [done|].
  set (self1 := set_ships_sunk self _).
  assert (∃ rem,
    (if bool_decide (L ∈ remaining_ship_sizes self1)
     then py_remove L (remaining_ship_sizes self1)
     else Ok (remaining_ship_sizes self1)) = Ok rem
    ∧ (if decide (L ∈ remaining_ship_sizes self)
       then remaining_ship_sizes self ≡ₚ L :: rem
       else rem = remaining_ship_sizes self)) as (rem & -> & Hrem).
  { change (remaining_ship_sizes self1) with (remaining_ship_sizes self).
    case_bool_decide as HL.
    - destruct (py_remove_Ok L _ HL) as (rem & -> & Hperm & _).
      exists rem. split; [done|]. by rewrite decide_True.
    - exists (remaining_ship_sizes self). split; [done|].
      by rewrite decide_False. }
  rewrite res_bind_Ok.
  destruct (clear_adjacent_targets_spec
              (set_remaining_ship_sizes self1 rem) (c0 :: found))
    as (ts & -> & Hsub & _ & Hnd).
  exists rem, ts. done.
Qed.

Lemma computed_heat_map_set_heat_map self g :
  computed_heat_map (set_heat_map self g) = computed_heat_map self.
Proof. done. Qed.

Lemma computed_heat_map_set_possible_targets self ts :
  computed_heat_map (set_possible_targets self ts) = computed_heat_map self.
Proof. done. Qed.

(** What every call establishes, whatever the cell and the outcome. *)
Lemma update_after_guess_basic self x y is_hit is_sunk sunk_ship_size :
  ∃ st', update_after_guess self x y is_hit is_sunk sunk_ship_size = Ok st'
    ∧ board_size st' = board_size self
    ∧ shots_fired st' = shots_fired self ++ [(x, y)]
    ∧ hits st' = (if is_hit then hits self ++ [(x, y)] else hits self)
    ∧ misses st' = (if is_hit then misses self else misses self ++ [(x, y)])
    ∧ (∀ t, t ∈ possible_targets st' → t ∈ possible_targets self)
    ∧ (NoDup (possible_targets self) →
       NoDup (possible_targets st') ∧ (x, y) ∉ possible_targets st')
    ∧ heat_map st' = computed_heat_map st'.
Proof.
  destruct is_hit.
  - destruct (is_sunk && truthy sunk_ship_size) eqn:Hs.
    + apply andb_true_iff in Hs as [-> Htr].
      destruct sunk_ship_size as [L|]; [|done]. simpl in Htr.
      apply negb_true_iff, Z.eqb_neq in Htr.
      rewrite update_after_guess_sunk by done.
      destruct (record_sinking_spec (with_hit self x y) x y L)
        as (found & _ & Hrec).
      destruct found as [|c0 found].
      * rewrite Hrec. simpl.
        destruct (finish_update_spec x y (with_hit self x y))
          as (ts & -> & _ & Hsub & Hnd).
        eexists. split; [done|]. simpl. split_and!; try done; first [exact Hsub|exact Hnd].
      * destruct Hrec as (rem & ts1 & -> & _ & Hsub1 & Hnd1). simpl.
        match goal with |- context [finish_update x y ?s] =>
          destruct (finish_update_spec x y s) as (ts & -> & _ & Hsub & Hnd)
        end.
        eexists. split; [done|]. simpl. split_and!; try done.
        -- intros t Ht. apply Hsub1. by apply Hsub.
        -- intros Hnd0. apply Hnd. by apply Hnd1.
    + rewrite update_after_guess_hit by done.
      destruct (finish_update_spec x y (with_hit self x y))
        as (ts & -> & _ & Hsub & Hnd).
      eexists. split; [done|]. simpl. split_and!; try done; first [exact Hsub|exact Hnd].
  - rewrite update_after_guess_miss.
    match goal with |- context [finish_update x y ?s] =>
      destruct (finish_update_spec x y s) as (ts & -> & _ & Hsub & Hnd)
    end.
    eexists. split; [done|]. simpl. split_and!; try done; first [exact Hsub|exact Hnd].
Qed.

(** ** Invariants of reachable states *)

Lemma elem_of_all_cells n (c : cell) : c ∈ all_cells n ↔ in_board n c.
Proof.
  unfold all_cells, pyrange, in_board. rewrite list_elem_of_bind.
  setoid_rewrite list_elem_of_bind. setoid_rewrite list_elem_of_singleton.
  setoid_rewrite elem_of_seqZ. destruct c as [cx cy]. simpl. split.
  - intros (x & (y & [= -> ->] & ?) & ?). lia.
  - intros [? ?]. exists cx. split; [|lia]. exists cy. split; [done|lia].
Qed.

Lemma all_cells_NoDup n : NoDup (all_cells n).
Proof.
  unfold all_cells, pyrange. apply NoDup_bind; [| |apply NoDup_seqZ].
  - intros x1 x2 c _ _.
    rewrite !list_elem_of_bind. setoid_rewrite list_elem_of_singleton.
    intros (y1 & -> & _) (y2 & [= -> _] & _). done.
  - intros x _. apply NoDup_bind; [| |apply NoDup_seqZ].
    + intros y1 y2 c _ _.
      rewrite !list_elem_of_singleton. by intros -> [= ->].
    + intros y _. apply NoDup_singleton.
Qed.

(** Well-formedness of the target list of a board of side [n]. *)
Definition targets_wf (n : Z) (st : BaseAI) : Prop :=
  board_size st = n
  ∧ NoDup (possible_targets st)
  ∧ (∀ t, t ∈ possible_targets st → in_board n t)
  ∧ (∀ c, c ∈ shots_fired st → c ∉ possible_targets st).

Lemma targets_wf_init n : targets_wf n (BaseAI_init n).
Proof.
  split; [done|]. split; [apply all_cells_NoDup|]. split.
  - intros t. apply elem_of_all_cells.
  - intros c Hc. by apply elem_of_nil in Hc.
Qed.

Lemma targets_wf_step n st x y is_hit is_sunk sunk_ship_size st' :
  targets_wf n st →
  update_after_guess st x y is_hit is_sunk sunk_ship_size = Ok st' →
  targets_wf n st'.
Proof.
  intros (Hn & Hnd & Hb & Hshots) Hst.
  destruct (update_after_guess_basic st x y is_hit is_sunk sunk_ship_size)
    as (st'' & Hst' & Hn' & Hsh & _ & _ & Hsub & Hnd' & _).
  rewrite Hst in Hst'. injection Hst' as <-.
  destruct (Hnd' Hnd) as [Hnd2 Hxy].
  split; [congruence|]. split; [done|]. split; [by auto|].
  intros c. rewrite Hsh. intros [Hc| ->%list_elem_of_singleton]%elem_of_app.
  - intros Hin. by apply (Hshots c Hc), Hsub.
  - done.
Qed.

Lemma reachable_targets_wf n st : reachable n st → targets_wf n st.
Proof.
  induction 1 as [|st x y a b c st' _ IH Hst];
    [apply targets_wf_init|by eapply targets_wf_step].
Qed.

(** ** C3: no validation of the recorded cell *)

(** C3 (as amended).  [update_after_guess] performs no validation: for
    every state, every cell (inside or outside the board, fresh or already
    shot) and every outcome it returns normally, appending the cell to
    [shots_fired]; in particular it succeeds for every in-bounds cell not
    yet shot. *)
Theorem update_after_guess_never_fails (self : BaseAI) (x y : Z)
    (is_hit is_sunk : bool) (sunk_ship_size : option Z) :
  ∃ st', update_after_guess self x y is_hit is_sunk sunk_ship_size = Ok st'
         ∧ shots_fired st' = shots_fired self ++ [(x, y)]
         ∧ board_size st' = board_size self.
Proof.
  destruct (update_after_guess_basic self x y is_hit is_sunk sunk_ship_size)
    as (st' & Hst & Hn & Hsh & _).
  by exists st'.
Qed.

(** C3 fails as stated: the out-of-bounds cell (10,10) of a fresh 10x10
    board, and the already-shot cell (0,0), are both recorded without any
    failure. *)
Lemma invalid_shots_are_accepted :
  ∃ st1 st2 st3,
    invalid_shot (BaseAI_init 10) 10 10
    ∧ update_after_guess (BaseAI_init 10) 10 10 false false None = Ok st1
    ∧ shots_fired st1 = [(10, 10)]
    ∧ update_after_guess (BaseAI_init 10) 0 0 false false None = Ok st2
    ∧ invalid_shot st2 0 0
    ∧ update_after_guess st2 0 0 true false None = Ok st3
    ∧ shots_fired st3 = [(0, 0); (0, 0)].
Proof.
  destruct (update_after_guess_basic (BaseAI_init 10) 10 10
              false false None) as (st1 & H1 & _ & Hs1 & _).
  destruct (update_after_guess_basic (BaseAI_init 10) 0 0
              false false None) as (st2 & H2 & _ & Hs2 & _).
  destruct (update_after_guess_basic st2 0 0 true false None)
    as (st3 & H3 & _ & Hs3 & _).
  exists st1, st2, st3. split_and!; try done.
  - left. unfold in_board. simpl. lia.
  - right. rewrite Hs2. simpl. left.
  - by rewrite Hs3, Hs2.
Qed.

(** ** C5: a sinking that the hits do not support *)

(** C5 (as amended).  When fewer than [L] 4-connected hit cells exist
    (counting the shot itself), recording a sinking of length [L] does not
    fail: [_find_ship_from_last_hit] returns the empty list and the shot is
    recorded as a plain hit; [ships_sunk] and [remaining_ship_sizes] are
    unchanged and no target other than the shot cell is removed. *)
Theorem unsupported_sinking_recorded_as_hit (self : BaseAI) (x y L : Z) :
  fewer_connected (board_size self) (hits self ++ [(x, y)]) (x, y) L →
  ∃ st', update_after_guess self x y true true (Some L) = Ok st'
    ∧ _find_ship_from_last_hit (with_hit self x y) x y L = Ok []
    ∧ shots_fired st' = shots_fired self ++ [(x, y)]
    ∧ hits st' = hits self ++ [(x, y)]
    ∧ ships_sunk st' = ships_sunk self
    ∧ remaining_ship_sizes st' = remaining_ship_sizes self
    ∧ (∀ t, t ≠ (x, y) →
         t ∈ possible_targets st' ↔ t ∈ possible_targets self).
Proof.
  intros Hfew.
  assert (HL : L ≠ 0).
  { specialize (Hfew [] (NoDup_nil_2)). simpl in Hfew.
    intros ->. apply (Z.lt_irrefl 0), Hfew.
    intros c Hc. by apply elem_of_nil in Hc. }
  rewrite update_after_guess_sunk by done.
  destruct (find_ship_from_last_hit_spec (with_hit self x y) x y L)
    as (r & Hr & _ & _ & _ & _ & Hnil).
  rewrite (Hnil Hfew) in Hr.
  destruct (record_sinking_spec (with_hit self x y) x y L)
    as (found & Hf & Hrec).
  rewrite Hr in Hf. injection Hf as <-. rewrite Hrec, res_bind_Ok.
  destruct (finish_update_spec x y (with_hit self x y))
    as (ts & -> & Hiff & _).
  eexists. split; [done|]. split; [done|]. simpl. by split_and!.
Qed.

Lemma lone_hit_connected (c : cell) :
  connected 10 [(5, 0)] (5, 0) c → c = (5, 0).
Proof.
  induction 1 as [_|c d _ _ _ Hin _]; [done|].
  by apply list_elem_of_singleton in Hin.
Qed.

Lemma lone_hit_fewer : fewer_connected 10 [(5, 0)] (5, 0) 2.
Proof.
  intros cs Hnd Hconn.
  destruct cs as [|a [|b cs]]; simpl; [lia|lia|].
  exfalso. apply NoDup_cons in Hnd as [Hab _]. apply Hab.
  rewrite (lone_hit_connected a), (lone_hit_connected b).
  - left.
  - apply Hconn. right. left.
  - apply Hconn. left.
Qed.

Lemma unsupported_sinking_recorded_as_hit_witness :
  ∃ st', update_after_guess (BaseAI_init 10) 5 0 true true (Some 2) = Ok st'
    ∧ _find_ship_from_last_hit (with_hit (BaseAI_init 10) 5 0) 5 0 2 = Ok []
    ∧ shots_fired st' = [(5, 0)]
    ∧ hits st' = [(5, 0)]
    ∧ ships_sunk st' = []
    ∧ remaining_ship_sizes st' = [5; 4; 3; 3; 2]
    ∧ (∀ t, t ≠ (5, 0) →
         t ∈ possible_targets st' ↔ t ∈ possible_targets (BaseAI_init 10)).
Proof.
  apply (unsupported_sinking_recorded_as_hit (BaseAI_init 10) 5 0 2).
  exact lone_hit_fewer.
Defined.

(** C5 fails as stated: on a fresh 10x10 board the claimed sinking of
    length 2 at the isolated hit (5,0) is not rejected; the call returns
    normally and records a plain hit. *)
Lemma lone_hit_sinking_is_not_rejected :
  fewer_connected 10 [(5, 0)] (5, 0) 2
  ∧ ∃ st', update_after_guess (BaseAI_init 10) 5 0 true true (Some 2) = Ok st'
           ∧ hits st' = [(5, 0)] ∧ ships_sunk st' = [].
Proof.
  split; [exact lone_hit_fewer|].
  destruct (update_after_guess_basic (BaseAI_init 10) 5 0 true true (Some 2))
    as (st' & Hst & _ & _ & Hh & _).
  exists st'. split; [done|]. split; [done|].
  vm_compute in Hst. by injection Hst as <-.
Qed.

(** ** C4: a confirmed sinking *)

Lemma chebyshev_around (t c : cell) :
  chebyshev t c ≤ 1 → ∃ d, d ∈ around_steps ∧ t = shift c d.
Proof.
  unfold chebyshev. intros Hd. exists (t.1 - c.1, t.2 - c.2). split.
  - assert (H1 : t.1 - c.1 = -1 ∨ t.1 - c.1 = 0 ∨ t.1 - c.1 = 1) by lia.
    assert (H2 : t.2 - c.2 = -1 ∨ t.2 - c.2 = 0 ∨ t.2 - c.2 = 1) by lia.
    destruct H1 as [-> | [-> | ->]], H2 as [-> | [-> | ->]];
      vm_compute; set_solver.
  - destruct t, c. unfold shift. simpl. f_equal; lia.
Qed.

(** C4 (as amended).  In a reachable state, recording [HitAndSunk(L)] at a
    cell with at least [L] 4-connected hit cells returns normally; one
    entry of exactly [L] distinct connected hit cells is appended to
    [ships_sunk]; one instance of [L] is removed from
    [remaining_ship_sizes] when one is present, and the inventory is left
    unchanged (without failure) when none is; afterwards no possible
    target lies within Chebyshev distance 1 of a cell of the reconstructed
    ship. *)
Theorem confirmed_sinking_updates_state (n : Z) (self : BaseAI) (x y L : Z) :
  reachable n self → 0 < L →
  at_least_connected n (hits self ++ [(x, y)]) (x, y) L →
  ∃ st' ship,
    update_after_guess self x y true true (Some L) = Ok st'
    ∧ ships_sunk st' = ships_sunk self ++ [ShipInfo.mk L ship None true]
    ∧ Z.of_nat (length ship) = L
    ∧ NoDup ship
    ∧ (∀ c, c ∈ ship → connected n (hits self ++ [(x, y)]) (x, y) c)
    ∧ (if decide (L ∈ remaining_ship_sizes self)
       then remaining_ship_sizes self ≡ₚ L :: remaining_ship_sizes st'
       else remaining_ship_sizes st' = remaining_ship_sizes self)
    ∧ (∀ t c, t ∈ possible_targets st' → c ∈ ship → 1 < chebyshev t c).
Proof.
  intros (Hn & Hnd & Hb & _)%reachable_targets_wf HL Hconn.
  rewrite update_after_guess_sunk by lia.
  destruct (find_ship_from_last_hit_spec (with_hit self x y) x y L)
    as (ship & Hr & Hnds & Hall & _ & Hlen & _).
  simpl in Hall, Hlen. rewrite Hn in Hall, Hlen.
  specialize (Hlen HL Hconn).
  destruct (record_sinking_spec (with_hit self x y) x y L)
    as (found & Hf & Hrec).
  rewrite Hr in Hf. injection Hf as <-.
  destruct ship as [|c0 ship]; [simpl in Hlen; lia|].
  destruct Hrec as (rem & ts1 & -> & Hrem & Hsub1 & Hnd1).
  rewrite res_bind_Ok.
  match goal with |- context [finish_update x y ?s] =>
    destruct (finish_update_spec x y s) as (ts & -> & _ & Hsub & _)
  end.
  simpl in *. destruct (Hnd1 Hnd) as [_ Hfar].
  eexists _, (c0 :: ship). split; [done|]. simpl.
  split_and!; try done.
  intros t c Ht Hc.
  destruct (decide (1 < chebyshev t c)) as [|Hnear]; [done|].
  exfalso. destruct (chebyshev_around t c) as (d & Hd & Heq); [lia|].
  apply (Hfar t c d); try done.
  - by apply Hsub.
  - rewrite Hn. apply Hb. apply Hsub1. by apply Hsub.
Qed.

Lemma record_all_reachable n st shots st' :
  reachable n st → record_all st shots = Ok st' → reachable n st'.
Proof.
  unfold record_all. revert st.
  induction shots as [|s shots IH]; intros st Hst; simpl.
  - by intros [= <-].
  - destruct (update_after_guess_basic st (shot_x s) (shot_y s) (shot_hit s)
                (shot_sunk s) (shot_size s)) as (st1 & H1 & _).
    rewrite H1. apply IH. by eapply reachable_step.
Qed.

Lemma state_after_reachable n shots : reachable n (state_after n shots).
Proof.
  unfold state_after.
  destruct (record_all (BaseAI_init n) shots) as [st| |] eqn:Hst;
    try apply reachable_init.
  eapply record_all_reachable; [apply reachable_init|done].
Qed.

(** One hit at (0,0) on a fresh 10x10 board. *)
Definition one_hit : BaseAI :=
  state_after 10 [mkShot 0 0 true false None].

Lemma one_hit_connected :
  at_least_connected 10 (hits one_hit ++ [(1, 0)]) (1, 0) 2.
Proof.
  exists [(1, 0); (0, 0)]. split; [|split].
  - apply NoDup_cons. split; [|apply NoDup_singleton].
    by intros [=]%list_elem_of_singleton.
  - simpl. lia.
  - assert (Hs : connected 10 (hits one_hit ++ [(1, 0)]) (1, 0) (1, 0)).
    { constructor. vm_compute. set_solver. }
    intros c [->|[->|[]%elem_of_nil]%elem_of_cons]%elem_of_cons; [done|].
    apply (connected_step _ _ _ (1, 0) (-1, 0) Hs).
    + vm_compute. set_solver.
    + vm_compute. set_solver.
    + unfold in_board. simpl. lia.
Qed.

Lemma confirmed_sinking_updates_state_witness :
  ∃ st' ship,
    update_after_guess one_hit 1 0 true true (Some 2) = Ok st'
    ∧ ships_sunk st' = ships_sunk one_hit ++ [ShipInfo.mk 2 ship None true]
    ∧ Z.of_nat (length ship) = 2
    ∧ NoDup ship
    ∧ (∀ c, c ∈ ship → connected 10 (hits one_hit ++ [(1, 0)]) (1, 0) c)
    ∧ (if decide (2 ∈ remaining_ship_sizes one_hit)
       then remaining_ship_sizes one_hit ≡ₚ 2 :: remaining_ship_sizes st'
       else remaining_ship_sizes st' = remaining_ship_sizes one_hit)
    ∧ (∀ t c, t ∈ possible_targets st' → c ∈ ship → 1 < chebyshev t c).
Proof.
  apply (confirmed_sinking_updates_state 10 one_hit 1 0 2).
  - apply state_after_reachable.
  - lia.
  - exact one_hit_connected.
Defined.

(** The 2-ship sunk at (0,0)-(1,0), then a hit at (5,5). *)
Definition after_first_sinking : BaseAI :=
  state_after 10 [mkShot 0 0 true false None;
                  mkShot 1 0 true true (Some 2);
                  mkShot 5 5 true false None].

(** C4 fails as stated: with the only 2 of the inventory already removed,
    a second sinking of length 2 (hits (5,5) and (6,5)) does not fail with
    an unknown-length error; it returns normally, records a second sunk
    ship and leaves the inventory as it was. *)
Lemma second_sinking_of_same_length_is_accepted :
  reachable 10 after_first_sinking
  ∧ at_least_connected 10 (hits after_first_sinking ++ [(6, 5)]) (6, 5) 2
  ∧ (2 ∉ remaining_ship_sizes after_first_sinking)
  ∧ ∃ st', update_after_guess after_first_sinking 6 5 true true (Some 2)
           = Ok st'
           ∧ length (ships_sunk st') = 2%nat
           ∧ remaining_ship_sizes st' = [5; 4; 3; 3].
Proof.
  split; [apply state_after_reachable|]. split; [|split].
  - exists [(6, 5); (5, 5)]. split; [|split].
    + apply NoDup_cons. split; [|apply NoDup_singleton].
      by intros [=]%list_elem_of_singleton.
    + simpl. lia.
    + assert (Hs : connected 10 (hits after_first_sinking ++ [(6, 5)])
                     (6, 5) (6, 5)).
      { constructor. vm_compute. set_solver. }
      intros c [->|[->|[]%elem_of_nil]%elem_of_cons]%elem_of_cons; [done|].
      apply (connected_step _ _ _ (6, 5) (-1, 0) Hs).
      * vm_compute. set_solver.
      * vm_compute. set_solver.
      * unfold in_board. simpl. lia.
  - vm_compute. set_solver.
  - destruct (update_after_guess after_first_sinking 6 5 true true (Some 2))
      as [st'| |] eqn:Hst; [|by vm_compute in Hst..].
    exists st'. split; [done|].
    vm_compute in Hst. by injection Hst as <-.
Qed.


(** * Properties of the strategies *)

(** ** Computations in the world *)

Lemma returns_ret {A} (a : A) w (P : A → Prop) : P a → returns (mret a) w P.
Proof. intros Ha. by exists a, w. Qed.

Lemma returns_bind {A B} (m : rand A) (k : A → rand B) w
    (P : A → Prop) (Q : B → Prop) :
  returns m w P → (∀ a w', P a → returns (k a) w' Q) →
  returns (m ≫= k) w Q.
Proof.
  intros (a & w' & Hm & Ha) Hk.
  destruct (Hk a w' Ha) as (b & w'' & Hb & HQ).
  exists b, w''. split; [|done].
  unfold mbind, rand_bind. by rewrite Hm.
Qed.

Lemma returns_lift {A} (m : res A) (a : A) w (P : A → Prop) :
  m = Ok a → P a → returns (lift m) w P.
Proof. intros -> Ha. by exists a, w. Qed.

Lemma returns_impl {A} (m : rand A) w (P Q : A → Prop) :
  returns m w P → (∀ a, P a → Q a) → returns m w Q.
Proof. intros (a & w' & Hm & Ha) HPQ. exists a, w'. auto. Qed.


Lemma random_choice_returns {A} (l : list A) w :
  l ≠ [] → returns (random_choice l) w (λ a, a ∈ l).
Proof.
  intros Hne. unfold returns, random_choice.
  destruct (lookup_lt_is_Some_2 l (index_tape w (draws w) `mod` length l)%nat)
    as [a Ha].
  { apply Nat.mod_upper_bound. by destruct l. }
  rewrite Ha. exists a, (next_draw w). split; [done|].
  by eapply list_elem_of_lookup_2.
Qed.

Lemma random_random_returns w : returns random_random w (λ _, True).
Proof. by eexists _, _. Qed.

Lemma time_time_returns w : returns time_time w (λ _, True).
Proof. by eexists _, _. Qed.

(** ** [max(l, key=...)] *)

Lemma py_max_from_spec {A} (key : A → nat) (best : A) (l : list A) :
  ∃ l1 l2, best :: l = l1 ++ py_max_from key best l :: l2
           ∧ (∀ a, a ∈ l1 → (key a < key (py_max_from key best l))%nat)
           ∧ (∀ a, a ∈ l2 → (key a ≤ key (py_max_from key best l))%nat).
Proof.
  revert best. induction l as [|a l IH]; intros best.
  - exists [], []. simpl. split; [done|].
    split; intros a Ha; by apply elem_of_nil in Ha.
  - simpl. case_bool_decide as Hlt.
    + destruct (IH a) as (l1 & l2 & Heq & H1 & H2).
      exists (best :: l1), l2. split; [by rewrite Heq|]. split; [|done].
      intros b [->|Hb]%elem_of_cons; [|by apply H1].
      assert (key a ≤ key (py_max_from key a l))%nat; [|lia].
      destruct l1 as [|c l1]; simpl in Heq.
      * injection Heq as Heq _. by rewrite <- Heq.
      * injection Heq as -> _. specialize (H1 c (list_elem_of_here _ _)). lia.
    + destruct (IH best) as (l1 & l2 & Heq & H1 & H2).
      destruct l1 as [|c l1]; simpl in Heq.
      * injection Heq as Hb Hl.
        exists [], (a :: l2). simpl. split; [congruence|].
        split; [intros b Hb'; by apply elem_of_nil in Hb'|].
        intros b [->|Hb']%elem_of_cons; [rewrite <- Hb; lia|by apply H2].
      * injection Heq as -> Hl.
        exists (c :: a :: l1), l2. split; [simpl; congruence|]. split; [|done].
        intros b [->|[->|Hb]%elem_of_cons]%elem_of_cons.
        -- apply H1. left.
        -- specialize (H1 c (list_elem_of_here _ _)). lia.
        -- apply H1. by right.
Qed.

Lemma py_max_spec {A} (key : A → nat) (l : list A) :
  l ≠ [] →
  ∃ c l1 l2, py_max key l = Ok c ∧ l = l1 ++ c :: l2
             ∧ (∀ a, a ∈ l1 → (key a < key c)%nat)
             ∧ (∀ a, a ∈ l2 → (key a ≤ key c)%nat).
Proof.
  destruct l as [|a l]; [done|]. intros _.
  destruct (py_max_from_spec key a l) as (l1 & l2 & ?).
  exists (py_max_from key a l), l1, l2. by split.
Qed.

Lemma py_max_elem {A} (key : A → nat) (l : list A) :
  l ≠ [] → ∃ c, py_max key l = Ok c ∧ c ∈ l ∧ ∀ a, a ∈ l → (key a ≤ key c)%nat.
Proof.
  intros Hne. destruct (py_max_spec key l Hne) as (c & l1 & l2 & Hc & -> & H1 & H2).
  exists c. split; [done|]. split.
  - apply elem_of_app. right. left.
  - intros a [Ha|[->|Ha]%elem_of_cons]%elem_of_app.
    + specialize (H1 a Ha). lia.
    + done.
    + by apply H2.
Qed.

(** ** [_hunt_mode] *)

Lemma insert_by_key_elem {A} (key : A → Z) (a b : A) (l : list A) :
  b ∈ insert_by_key key a l ↔ b = a ∨ b ∈ l.
Proof.
  induction l as [|c l IH]; cbn [insert_by_key].
  - rewrite list_elem_of_singleton, elem_of_nil. tauto.
  - case_bool_decide; rewrite !elem_of_cons, ?IH; tauto.
Qed.

Lemma py_sorted_by_key_elem {A} (key : A → Z) (b : A) (l : list A) :
  b ∈ py_sorted_by_key key l ↔ b ∈ l.
Proof.
  unfold py_sorted_by_key. induction l as [|a l IH]; simpl; [done|].
  by rewrite insert_by_key_elem, IH, elem_of_cons.
Qed.

Lemma diagonal_candidates_elem self ds (c : cell) :
  c ∈ diagonal_candidates self ds → c ∈ possible_targets self.
Proof.
  induction ds as [|d ds IH]; simpl; [by intros ?%elem_of_nil|].
  destruct (filter _ _) as [|f found] eqn:Hf; [done|].
  rewrite <- Hf. by intros [[_ ?] _]%list_elem_of_filter.
Qed.

Lemma hunt_candidates_targets self pattern (c : cell) :
  c ∈ hunt_candidates self pattern → c ∈ possible_targets self.
Proof.
  destruct pattern as [[]|]; simpl; try done.
  - apply diagonal_candidates_elem.
  - destruct (filter _ _) as [|f found] eqn:Hf; [done|].
    rewrite <- Hf. by intros [_ ?]%list_elem_of_filter.
  - by intros ?%py_sorted_by_key_elem.
Qed.

(** In hunting the returned cell is a possible target, and with
    candidates it is one of them with maximal score, independently of the
    world. *)
Lemma hunt_mode_returns self pattern w :
  possible_targets self ≠ [] →
  returns (_hunt_mode self pattern) w (λ c, c ∈ possible_targets self).
Proof.
  intros Hne. unfold _hunt_mode.
  destruct (hunt_candidates self pattern) as [|c0 cs] eqn:Hc.
  - by apply random_choice_returns.
  - destruct (py_max_elem (heat_at (heat_map self)) (c0 :: cs))
      as (c & Hmax & Hin & _); [done|].
    eapply returns_lift; [done|].
    apply (hunt_candidates_targets self pattern). by rewrite Hc.
Qed.

Lemma hunt_mode_candidates self pattern w :
  hunt_candidates self pattern ≠ [] →
  ∃ c, _hunt_mode self pattern w = Ok (c, w)
       ∧ c ∈ hunt_candidates self pattern
       ∧ ∀ a, a ∈ hunt_candidates self pattern →
              (heat_at (heat_map self) a ≤ heat_at (heat_map self) c)%nat.
Proof.
  intros Hne. unfold _hunt_mode.
  destruct (py_max_elem (heat_at (heat_map self)) _ Hne) as (c & Hmax & Hin & Hle).
  destruct (hunt_candidates self pattern) as [|c0 cs]; [done|].
  exists c. unfold lift. by rewrite Hmax.
Qed.

(** ** [_group_hits]: the loops finish within their budget *)

Section grow.
Context (hs : list cell).

Let Hset : gset cell := list_to_set hs.

Definition grow_body (st : list cell * gset cell * bool) (other : cell)
: list cell * gset cell * bool :=
let '(group, used, changed) := st in
if bool_decide (other ∈ used) then st
else if existsb (touching other) group
     then (group ++ [other], {[other]} ∪ used, true)
     else st.

Lemma grow_pass_unfold st : grow_pass hs st = foldl grow_body st hs.
Proof. done. Qed.

Lemma grow_fold_spec (l : list cell) group used changed :
(∀ c, c ∈ l → c ∈ hs) →
∃ group' used' changed',
  foldl grow_body (group, used, changed) l = (group', used', changed')
  ∧ used ⊆ used'
  ∧ (changed' = true →
     changed = true ∨ (size (Hset ∖ used') < size (Hset ∖ used))%nat).
Proof.
revert group used changed.
induction l as [|other l IH]; intros group used changed Hl.
{ exists group, used, changed. split; [done|]. split; [done|]. by left. }
simpl. case_bool_decide as Hu.
{ apply IH. intros c Hc. apply Hl. by right. }
destruct (existsb (touching other) group).
2:{ apply IH. intros c Hc. apply Hl. by right. }
destruct (IH (group ++ [other]) ({[other]} ∪ used) true)
  as (g' & u' & c' & -> & Hsub & _).
{ intros c Hc. apply Hl. by right. }
exists g', u', c'. split; [done|]. split; [set_solver|].
intros _. right.
assert (Hin : other ∈ Hset ∖ used).
{ apply elem_of_difference. split; [|done].
  apply elem_of_list_to_set, Hl. left. }
assert (Hsubset : Hset ∖ u' ⊂ Hset ∖ used).
{ split; [set_solver|].
  intros Hcon. specialize (Hcon other Hin).
  apply elem_of_difference in Hcon as [_ Hcon]. apply Hcon.
  apply Hsub. set_solver. }
by apply subset_size.
Qed.

Lemma grow_group_terminates fuel group used :
(size (Hset ∖ used) < fuel)%nat →
∃ group' used', grow_group fuel hs group used = Ok (group', used').
Proof.
revert group used.
induction fuel as [|fuel IH]; intros group used Hlt; [lia|].
simpl. rewrite grow_pass_unfold.
destruct (grow_fold_spec hs group used false)
  as (g' & u' & c' & -> & Hsub & Hch); [done|].
destruct c'; [|by eexists _, _].
apply IH. destruct Hch as [?|?]; [done..|lia].
Qed.

Lemma group_fold_terminates (l : list cell) groups used :
∃ groups' used',
  foldl (group_step hs) (Ok (groups, used)) l = Ok (groups', used').
Proof.
revert groups used. induction l as [|hit l IH]; intros groups used.
{ by eexists _, _. }
simpl. case_bool_decide; [apply IH|].
destruct (grow_group_terminates (S (length hs)) [hit] ({[hit]} ∪ used))
  as (g' & u' & Hg).
{ assert (size (Hset ∖ ({[hit]} ∪ used)) ≤ size Hset)%nat.
  { apply subseteq_size. set_solver. }
  pose proof (size_list_to_set_length hs). unfold Hset in *. lia. }
simpl in Hg. rewrite Hg. simpl. apply IH.
Qed.
End grow.

Lemma group_hits_terminates hs : ∃ groups, _group_hits hs = Ok groups.
Proof.
  unfold _group_hits. destruct hs as [|h hs]; [by eexists|].
  destruct (group_fold_terminates (h :: hs) (h :: hs) [] ∅)
    as (groups & used & ->).
  by eexists.
Qed.

(** ** [_target_mode] *)

Lemma forallb_Forall {A} (f : A → bool) (l : list A) :
  forallb f l = true ↔ Forall (λ a, f a = true) l.
Proof.
  induction l as [|a l IH]; simpl.
  - split; [constructor|done].
  - rewrite andb_true_iff, Forall_cons, IH. done.
Qed.

Lemma group_end_spec self g e :
  group_end self g = Some e → chosen_end self g e.
Proof.
  unfold group_end, chosen_end. destruct g as [|g0 g']; [done|].
  cbv beta iota. remember (g0 :: g') as g eqn:Hg.
  case_bool_decide as Hlen; [|done].
  destruct (forallb (λ p : cell, p.2 =? g0.2) g) eqn:Hrow.
  - apply forallb_Forall in Hrow.
    assert (Hrow' : Forall (λ p : cell, p.2 = g0.2) g).
    { eapply Forall_impl; [exact Hrow|]. intros p Hp. by apply Z.eqb_eq in Hp. }
    case_bool_decide as Hlo.
    + intros [= <-]. split; [done|]. split; [tauto|].
      left. exists g0.2. split; [done|]. left. simpl.
      unfold span_min, py_minZ in *. split; [done|lia].
    + case_bool_decide as Hhi; [|done].
      intros [= <-]. split; [done|]. split; [tauto|].
      left. exists g0.2. split; [done|]. right. simpl.
      unfold span_min, span_max, py_minZ, py_maxZ in *.
      split; [done|]. split; [lia|].
      intros [? ?]. apply Hlo. split; [lia|done].
  - destruct (forallb (λ p : cell, p.1 =? g0.1) g) eqn:Hcol; [|done].
    apply forallb_Forall in Hcol.
    assert (Hcol' : Forall (λ p : cell, p.1 = g0.1) g).
    { eapply Forall_impl; [exact Hcol|]. intros p Hp. by apply Z.eqb_eq in Hp. }
    case_bool_decide as Hlo.
    + intros [= <-]. split; [done|]. split; [tauto|].
      right. exists g0.1. split; [done|]. left. simpl.
      unfold span_min, py_minZ in *. split; [done|lia].
    + case_bool_decide as Hhi; [|done].
      intros [= <-]. split; [done|]. split; [tauto|].
      right. exists g0.1. split; [done|]. right. simpl.
      unfold span_min, span_max, py_minZ, py_maxZ in *.
      split; [done|]. split; [lia|].
      intros [? ?]. apply Hlo. split; [lia|done].
Qed.

Lemma first_group_end_spec self groups e :
  first_group_end self groups = Some e →
  ∃ pre g post, groups = pre ++ g :: post
                ∧ Forall (λ g', group_end self g' = None) pre
                ∧ chosen_end self g e.
Proof.
  induction groups as [|g groups IH]; simpl; [done|].
  destruct (group_end self g) as [c|] eqn:Hg.
  - intros [= ->]. exists [], g, groups. split; [done|].
    split; [constructor|]. by apply group_end_spec.
  - intros (pre & g1 & post & -> & Hpre & Hend)%IH.
    exists (g :: pre), g1, post. split; [done|]. split; [|done].
    by constructor.
Qed.

Lemma get_adjacent_positions_targets self x y (c : cell) :
  c ∈ _get_adjacent_positions self x y → c ∈ possible_targets self.
Proof.
  unfold _get_adjacent_positions. by intros [[_ ?] _]%list_elem_of_filter.
Qed.

Lemma first_adjacents_targets self hs (c : cell) :
  c ∈ first_adjacents self hs → c ∈ possible_targets self.
Proof.
  induction hs as [|h hs IH]; simpl; [by intros ?%elem_of_nil|].
  destruct (_get_adjacent_positions self h.1 h.2) as [|a adj] eqn:Hadj;
    [done|].
  rewrite <- Hadj. apply get_adjacent_positions_targets.
Qed.

Lemma target_mode_unfold self pattern unsunk groups w :
  _group_hits unsunk = Ok groups →
  _target_mode self pattern unsunk w =
    match first_group_end self groups with
    | Some c => Ok (c, w)
    | None =>
        match first_adjacents self unsunk with
        | [] => _hunt_mode self pattern w
        | adjacents => lift (py_max (heat_at (heat_map self)) adjacents) w
        end
    end.
Proof.
  intros Hg. unfold _target_mode, mbind, rand_bind, lift. rewrite Hg.
  destruct (first_group_end self groups); [reflexivity|].
  by destruct (first_adjacents self unsunk).
Qed.

Lemma target_mode_returns self pattern unsunk w :
  possible_targets self ≠ [] →
  returns (_target_mode self pattern unsunk) w
    (λ c, c ∈ possible_targets self).
Proof.
  intros Hne. destruct (group_hits_terminates unsunk) as [groups Hg].
  unfold returns. rewrite (target_mode_unfold _ _ _ _ _ Hg).
  destruct (first_group_end self groups) as [e|] eqn:He.
  - apply first_group_end_spec in He as (_ & g & _ & _ & _ & _ & He & _).
    by exists e, w.
  - destruct (first_adjacents self unsunk) as [|a adj] eqn:Hadj.
    + by apply hunt_mode_returns.
    + destruct (py_max_elem (heat_at (heat_map self)) (a :: adj))
        as (c & Hmax & Hin & _); [done|].
      exists c, w. unfold lift. rewrite Hmax. split; [done|].
      apply (first_adjacents_targets self unsunk). by rewrite Hadj.
Qed.

(** ** [ImprovedHuntTargetAI.make_guess] *)

Lemma pop_priority_spec self pts :
  match (pop_priority self pts).1 with
  | Some c => c ∈ possible_targets self
  | None => True
  end.
Proof.
  induction pts as [|t pts IH]; simpl; [done|].
  by case_bool_decide.
Qed.

Lemma hunt_make_guess_returns (self : ImprovedHuntTargetAI) w :
  possible_targets (hunt_base self) ≠ [] →
  returns (ImprovedHuntTargetAI_make_guess self) w
    (λ r, ∃ c, r.1 = Some c ∧ c ∈ possible_targets (hunt_base self)
               ∧ hunt_base r.2 = hunt_base self).
Proof.
  intros Hne. unfold ImprovedHuntTargetAI_make_guess.
  destruct (possible_targets (hunt_base self)) as [|t0 ts] eqn:Hts; [done|].
  rewrite <- Hts in *.
  pose proof (pop_priority_spec (hunt_base self) (priority_targets self)) as Hp.
  destruct (pop_priority (hunt_base self) (priority_targets self))
    as [[c|] rest]; simpl in Hp.
  - apply returns_ret. by exists c.
  - destruct (unsunk_hits (hunt_base self)) as [|u us] eqn:Hu.
    + eapply returns_bind; [by apply hunt_mode_returns|].
      intros c w' Hc. apply returns_ret. by exists c.
    + eapply returns_bind; [by apply target_mode_returns|].
      intros c w' Hc. apply returns_ret. by exists c.
Qed.

Lemma hunt_make_guess_empty (self : ImprovedHuntTargetAI) w :
  possible_targets (hunt_base self) = [] →
  ImprovedHuntTargetAI_make_guess self w = Ok ((None, self), w).
Proof. intros Hnil. unfold ImprovedHuntTargetAI_make_guess. by rewrite Hnil. Qed.

(** ** C7: the cell proposed in targeting *)



(** ** C8: hunting on the checkerboard *)

(** C8 (confirmed): with the checkerboard pattern the candidates of the
    hunt are the undetermined cells with [(x + y) mod 2 = 0], or all the
    undetermined cells when there is none.  Hence on a board with no hit
    (and no queued priority target), whenever an undetermined cell of even
    parity remains, the guess is such a cell, one of maximal score among
    them, and the world is not consulted. *)
Theorem checkerboard_hunting_parity (self : ImprovedHuntTargetAI) (w : World) :
  hunt_pattern self = PatternEnum CHECKERBOARD →
  hunt_candidates (hunt_base self) (hunt_pattern self)
  = (if decide (parity0 (hunt_base self) = [])
     then possible_targets (hunt_base self)
     else parity0 (hunt_base self))
  ∧ (hits (hunt_base self) = [] → priority_targets self = [] →
     parity0 (hunt_base self) ≠ [] →
     ∃ c, ImprovedHuntTargetAI_make_guess self w = Ok ((Some c, self), w)
          ∧ c ∈ possible_targets (hunt_base self)
          ∧ (c.1 + c.2) `mod` 2 = 0
          ∧ ∀ a, a ∈ parity0 (hunt_base self) →
                 (heat_at (heat_map (hunt_base self)) a
                  ≤ heat_at (heat_map (hunt_base self)) c)%nat).
Proof.
  destruct self as [base pattern tm csh pts]. simpl. intros ->.
  assert (Hcand : hunt_candidates base (PatternEnum CHECKERBOARD)
                  = if decide (parity0 base = [])
                    then possible_targets base else parity0 base).
  { unfold hunt_candidates. fold (parity0 base).
    by destruct (parity0 base). }
  split; [done|]. intros Hhits -> Hpar.
  destruct (hunt_mode_candidates base (PatternEnum CHECKERBOARD) w)
    as (c & Hc & Hin & Hmax).
  { rewrite Hcand. by rewrite decide_False. }
  rewrite Hcand, decide_False in Hin, Hmax by done.
  exists c. split; [|split; [|split]].
  - unfold ImprovedHuntTargetAI_make_guess. simpl.
    destruct (possible_targets base) as [|t ts] eqn:Hts.
    { unfold parity0 in Hpar. by rewrite Hts in Hpar. }
    unfold unsunk_hits. rewrite Hhits. simpl.
    unfold mbind, rand_bind. by rewrite Hc.
  - unfold parity0 in Hin. by apply list_elem_of_filter in Hin as [_ ?].
  - unfold parity0 in Hin. by apply list_elem_of_filter in Hin as [? _].
  - done.
Qed.

Lemma checkerboard_hunting_parity_witness :
  ∃ c, ImprovedHuntTargetAI_make_guess (ImprovedHuntTargetAI_init 10)
         still_world
       = Ok ((Some c, ImprovedHuntTargetAI_init 10), still_world)
       ∧ c ∈ possible_targets (BaseAI_init 10)
       ∧ (c.1 + c.2) `mod` 2 = 0
       ∧ ∀ a, a ∈ parity0 (BaseAI_init 10) →
              (heat_at (heat_map (BaseAI_init 10)) a
               ≤ heat_at (heat_map (BaseAI_init 10)) c)%nat.
Proof.
  apply (checkerboard_hunting_parity (ImprovedHuntTargetAI_init 10)
           still_world eq_refl); [reflexivity..|].
  by vm_compute.
Defined.


(** * The pattern learner of [AdaptiveAI] *)

Lemma existsb_Exists {A} (f : A → bool) (l : list A) :
  existsb f l = true ↔ Exists (λ a, f a = true) l.
Proof.
  induction l as [|a l IH]; simpl.
  - rewrite Exists_nil. split; [done|tauto].
  - by rewrite orb_true_iff, Exists_cons, IH.
Qed.

Lemma Exists_equiv {A} (P Q : A → Prop) (l : list A) :
  (∀ a, P a ↔ Q a) → Exists P l ↔ Exists Q l.
Proof.
  intros HPQ. split; intros H; eapply Exists_impl; try exact H;
    intros a; apply HPQ.
Qed.

Lemma is_edge_spec self x y :
  _is_edge self x y = true
  ↔ x = 0 ∨ x = board_size self - 1 ∨ y = 0 ∨ y = board_size self - 1.
Proof. unfold _is_edge. rewrite !orb_true_iff, !Z.eqb_eq. tauto. Qed.

Lemma is_corner_edge self x y :
  _is_corner self x y = true → _is_edge self x y = true.
Proof.
  unfold _is_corner, _is_edge.
  rewrite andb_true_iff, !orb_true_iff. tauto.
Qed.

Lemma ship_on_edge_spec self (ship : list cell) :
  existsb (λ p : cell, _is_edge self p.1 p.2) ship = true
  ↔ touches_edge (board_size self) ship.
Proof.
  rewrite existsb_Exists. unfold touches_edge.
  apply Exists_equiv. intros p. apply is_edge_spec.
Qed.

Lemma ships_are_close_spec ship1 ship2 :
  _ships_are_close ship1 ship2 = true ↔ ships_close ship1 ship2.
Proof.
  unfold _ships_are_close, ships_close. rewrite existsb_Exists.
  apply Exists_equiv. intros p1. rewrite existsb_Exists.
  apply Exists_equiv. intros p2.
  rewrite andb_true_iff, !Z.leb_le. unfold chebyshev. lia.
Qed.

Lemma clustered_spec ships (ship1 : list cell) :
  existsb (λ ship2, bool_decide (ship1 ≠ ship2)
                    && _ships_are_close ship1 ship2) ships = true
  ↔ has_close_neighbour ships ship1.
Proof.
  rewrite existsb_Exists. unfold has_close_neighbour.
  apply Exists_equiv. intros ship2.
  by rewrite andb_true_iff, bool_decide_eq_true, ships_are_close_spec.
Qed.

Lemma py_truediv_Ok a b :
  b ≠ 0%nat → py_truediv a b = Ok (float_of_nat a / float_of_nat b)%float.
Proof. by destruct b. Qed.

Lemma py_truediv_zero a : py_truediv a 0 = Raise ZeroDivisionError.
Proof. done. Qed.

Lemma dict_get_Ok d k v : d !! k = Some v → dict_get d k = Ok v.
Proof. unfold dict_get. by intros ->. Qed.

(** ** C9: the update of the pattern weights *)

(** C9 (corrected): for a non-empty list of ships, the learner counts the
    ships that touch an edge and the ships that have another, different,
    ship within Chebyshev distance 2 (ships, not pairs of ships), divides
    both counts by the number of ships, and replaces edge-preference and
    cluster-preference by [0.2 * ratio + (1 - 0.2) * old] in binary64
    arithmetic, the factor 0.2 being fixed; center-preference and
    spread-preference become one minus the new values, the other weights
    are kept and the game counter grows by one.  Starting from the weight
    0.5 and observing the ratio 1.0 gives the binary64 number
    0.6000000000000001. *)
Theorem learn_from_game_moving_average (self : AdaptiveAI)
    (ships : list (list cell)) (old_edge old_cluster : float) :
  ships ≠ [] →
  pattern_weights self !! "edge_preference"%string = Some old_edge →
  pattern_weights self !! "cluster_ships"%string = Some old_cluster →
  let n := board_size (adaptive_base self) in
  let edge_ratio :=
    (float_of_nat (length (filter (touches_edge n) ships))
     / float_of_nat (length ships))%float in
  let cluster_ratio :=
    (float_of_nat (length (filter (has_close_neighbour ships) ships))
     / float_of_nat (length ships))%float in
  let new_edge := moving_average edge_ratio old_edge in
  let new_cluster := moving_average cluster_ratio old_cluster in
  (∃ self', learn_from_game self ships = Ok self'
     ∧ games_played self' = games_played self + 1
     ∧ adaptive_base self' = adaptive_base self
     ∧ pattern_weights self' !! "edge_preference"%string = Some new_edge
     ∧ pattern_weights self' !! "center_preference"%string
       = Some (1.0 - new_edge)%float
     ∧ pattern_weights self' !! "cluster_ships"%string = Some new_cluster
     ∧ pattern_weights self' !! "spread_ships"%string
       = Some (1.0 - new_cluster)%float
     ∧ pattern_weights self' !! "diagonal_placement"%string
       = pattern_weights self !! "diagonal_placement"%string)
  ∧ moving_average 1.0 0.5 = 0.6000000000000001%float.
Proof.
  intros Hne Hedge Hcluster n edge_ratio cluster_ratio new_edge new_cluster.
  split; [|by vm_compute].
  assert (Hlen : length ships ≠ 0%nat) by by destruct ships.
  unfold learn_from_game.
  repeat (first
    [ rewrite (py_truediv_Ok _ _ Hlen)
    | erewrite dict_get_Ok
        by (rewrite ?lookup_insert_ne by done;
            first [exact Hedge | exact Hcluster | apply lookup_insert_eq]) ];
    cbn [mbind res_bind]).
  assert (Hec : filter (λ ship, existsb (λ p : cell,
                  _is_edge (adaptive_base self) p.1 p.2) ship = true) ships
                = filter (touches_edge n) ships).
  { apply list_filter_iff. intros ship. apply ship_on_edge_spec. }
  assert (Hcc : filter (λ ship1, existsb (λ ship2,
                  bool_decide (ship1 ≠ ship2) && _ships_are_close ship1 ship2)
                  ships = true) ships
                = filter (has_close_neighbour ships) ships).
  { apply list_filter_iff. intros ship. apply clustered_spec. }
  rewrite Hec, Hcc.
  eexists. split; [reflexivity|]. cbn [games_played adaptive_base pattern_weights].
  split; [done|]. split; [done|].
  split; [by rewrite !lookup_insert_ne, lookup_insert_eq by done|].
  split; [by rewrite !lookup_insert_ne, lookup_insert_eq by done|].
  split; [by rewrite !lookup_insert_ne, lookup_insert_eq by done|].
  split; [by rewrite lookup_insert_eq|].
  by rewrite !lookup_insert_ne by done.
Qed.

Lemma learn_from_game_moving_average_witness :
  ∃ self', learn_from_game (AdaptiveAI_init 10) [[(0, 0); (0, 1)]] = Ok self'
    ∧ games_played self' = 1
    ∧ pattern_weights self' !! "edge_preference"%string
      = Some 0.6000000000000001%float
    ∧ pattern_weights self' !! "cluster_ships"%string = Some 0.4%float.
Proof.
  destruct (learn_from_game_moving_average (AdaptiveAI_init 10)
              [[(0, 0); (0, 1)]] 0.5 0.5)
    as [(self' & Hrun & Hgames & _ & Hedge & _ & Hcluster & _) _];
    [done|by vm_compute..|].
  exists self'. split; [exact Hrun|]. split; [exact Hgames|].
  split; [rewrite Hedge|rewrite Hcluster]; by vm_compute.
Defined.

(** The claim as worded fails twice.  With two ships near each other and a
    third far away, one pair of the three is close, but two ships of the
    three are counted, and the cluster weight moves towards 2/3, not 1/3.
    And from the weight 0.5 with all ships on an edge, the new weight is
    the binary64 number 0.6000000000000001, which is not 0.6. *)
Lemma cluster_ratio_counts_ships_not_pairs :
  (spec_pair_fraction two_close_one_far == 1 # 3)%Q
  ∧ length (filter (has_close_neighbour two_close_one_far) two_close_one_far)
    = 2%nat
  ∧ (∃ self', learn_from_game (AdaptiveAI_init 10) two_close_one_far = Ok self'
       ∧ pattern_weights self' !! "cluster_ships"%string
         = Some (moving_average (2 / 3) 0.5)
       ∧ moving_average (2 / 3) 0.5 ≠ moving_average (1 / 3) 0.5)
  ∧ (∃ self', learn_from_game (AdaptiveAI_init 10) [[(0, 0); (0, 1)]] = Ok self'
       ∧ pattern_weights self' !! "edge_preference"%string
         = Some 0.6000000000000001%float
       ∧ 0.6000000000000001%float ≠ 0.6%float).
Proof.
  split; [by vm_compute|]. split; [by vm_compute|]. split.
  - eexists. split; [by vm_compute|]. split; [by vm_compute|].
    intros H. apply (f_equal (λ f, PrimFloat.eqb f (moving_average (1 / 3) 0.5)))
      in H. vm_compute in H. discriminate H.
  - eexists. split; [by vm_compute|]. split; [by vm_compute|].
    intros H. apply (f_equal (λ f, PrimFloat.eqb f 0.6)) in H.
    vm_compute in H. discriminate H.
Qed.


(** * The guesses of [AdaptiveAI] *)

(** The two weights that [make_guess] reads are present. *)
Definition has_guess_weights (self : AdaptiveAI) : Prop :=
  is_Some (pattern_weights self !! "edge_preference"%string)
  ∧ is_Some (pattern_weights self !! "center_preference"%string).

Lemma learn_from_game_weights self ships self' k :
  learn_from_game self ships = Ok self' →
  is_Some (pattern_weights self !! k) → is_Some (pattern_weights self' !! k).
Proof.
  unfold learn_from_game. intros Hrun Hk.
  repeat match type of Hrun with
  | (?m ≫= _) = Ok _ =>
      destruct m as [?| |] eqn:?; cbn [mbind res_bind] in Hrun;
      [|discriminate Hrun..]
  end.
  injection Hrun as <-. cbn [pattern_weights].
  rewrite !lookup_insert_is_Some'. tauto.
Qed.

Lemma trained_has_guess_weights self : trained self → has_guess_weights self.
Proof.
  induction 1 as [n|ai b _ IH|ai ships ai' _ IH Hlearn].
  - split; eexists; vm_compute; reflexivity.
  - exact IH.
  - destruct IH. split; by eapply learn_from_game_weights.
Qed.

Lemma weighted_probability_Ok self p :
  has_guess_weights self → ∃ v, weighted_probability self p = Ok v.
Proof.
  intros [[we Hwe] [wc Hwc]]. unfold weighted_probability.
  rewrite !(dict_get_Ok _ _ _ Hwe), !(dict_get_Ok _ _ _ Hwc).
  destruct (_is_edge _ _ _), (_is_corner _ _ _); cbn [mbind res_bind];
    by eexists.
Qed.

Lemma items_set_keys {V} (d : list (cell * V)) k v c :
  c ∈ (items_set d k v).*1 ↔ c = k ∨ c ∈ d.*1.
Proof.
  induction d as [|[k' v'] d IH]; cbn [items_set].
  - rewrite fmap_cons, fmap_nil, list_elem_of_singleton, elem_of_nil. tauto.
  - destruct (decide (k = k')) as [->|Hne].
    + rewrite !fmap_cons, !elem_of_cons. simpl. tauto.
    + rewrite !fmap_cons, !elem_of_cons, IH. simpl. tauto.
Qed.

Lemma fill_probabilities_fold self (l : list cell) d0 :
  has_guess_weights self →
  ∃ d, foldl (λ acc p, d ← acc; prob ← weighted_probability self p;
                       Ok (items_set d p prob)) (Ok d0) l = Ok d
       ∧ ∀ c, c ∈ d.*1 ↔ c ∈ d0.*1 ∨ c ∈ l.
Proof.
  intros Hw. revert d0. induction l as [|p l IH]; intros d0.
  - exists d0. split; [done|]. intros c. rewrite elem_of_nil. tauto.
  - cbn [foldl mbind res_bind].
    destruct (weighted_probability_Ok self p Hw) as [v ->].
    cbn [mbind res_bind].
    destruct (IH (items_set d0 p v)) as (d & -> & Hd).
    exists d. split; [done|]. intros c.
    rewrite Hd, items_set_keys, elem_of_cons. tauto.
Qed.

Lemma fill_probabilities_spec self :
  has_guess_weights self →
  ∃ d, fill_probabilities self = Ok d
       ∧ ∀ c, c ∈ d.*1 ↔ c ∈ possible_targets (adaptive_base self).
Proof.
  intros Hw. destruct (fill_probabilities_fold self
    (possible_targets (adaptive_base self)) [] Hw) as (d & Hd & Hkeys).
  exists d. split; [done|]. intros c. rewrite Hkeys, fmap_nil, elem_of_nil.
  tauto.
Qed.

Lemma insert_descending_elem a b l :
  b ∈ insert_descending a l ↔ b = a ∨ b ∈ l.
Proof.
  induction l as [|c l IH]; cbn [insert_descending].
  - rewrite list_elem_of_singleton, elem_of_nil. tauto.
  - destruct (a.2 <? c.2)%float; rewrite !elem_of_cons, ?IH; tauto.
Qed.

Lemma insert_descending_length a l :
  length (insert_descending a l) = S (length l).
Proof.
  induction l as [|c l IH]; cbn [insert_descending]; [done|].
  destruct (a.2 <? c.2)%float; cbn [length]; by rewrite ?IH.
Qed.

Lemma sorted_descending_elem b l : b ∈ sorted_descending l ↔ b ∈ l.
Proof.
  unfold sorted_descending. induction l as [|a l IH]; cbn [foldr]; [done|].
  by rewrite insert_descending_elem, IH, elem_of_cons.
Qed.

Lemma sorted_descending_length l : length (sorted_descending l) = length l.
Proof.
  unfold sorted_descending. induction l as [|a l IH]; cbn [foldr]; [done|].
  by rewrite insert_descending_length, IH.
Qed.

Lemma adaptive_make_guess_returns self w :
  has_guess_weights self →
  possible_targets (adaptive_base self) ≠ [] →
  returns (AdaptiveAI_make_guess self) w
    (λ r, ∃ c, r = Some c ∧ c ∈ possible_targets (adaptive_base self)).
Proof.
  intros Hw Hne. unfold AdaptiveAI_make_guess.
  destruct (possible_targets (adaptive_base self)) as [|t0 ts] eqn:Hts;
    [done|]. rewrite <- Hts in *.
  destruct (fill_probabilities_spec self Hw) as (d & Hd & Hkeys).
  eapply returns_bind; [by eapply (returns_lift _ d _ (λ d', d' = d))|].
  intros ? w1 ->.
  eapply returns_bind; [apply random_random_returns|].
  intros r w2 _. destruct (Qlt_le_dec r threshold_0_1).
  - eapply returns_bind; [by apply random_choice_returns|].
    intros c w3 Hc. apply returns_ret. by exists c.
  - assert (Hlen : (0 < length (sorted_descending d))%nat).
    { rewrite sorted_descending_length.
      assert (Ht0 : t0 ∈ d.*1) by (apply Hkeys; rewrite Hts; left).
      destruct d; [by apply elem_of_nil in Ht0|simpl; lia]. }
    eapply returns_bind.
    { apply (random_choice_returns
               (seq 0 (Nat.min 5 (length (sorted_descending d))))).
      destruct (length (sorted_descending d)); [lia|done]. }
    intros idx w3 Hidx%elem_of_seq.
    destruct (lookup_lt_is_Some_2 (sorted_descending d) idx) as [item Hitem];
      [lia|].
    rewrite Hitem. apply returns_ret. exists item.1. split; [done|].
    apply Hkeys. apply list_elem_of_fmap. exists item. split; [done|].
    apply sorted_descending_elem. by eapply list_elem_of_lookup_2.
Qed.

Lemma adaptive_make_guess_empty self w :
  possible_targets (adaptive_base self) = [] →
  AdaptiveAI_make_guess self w = Ok (None, w).
Proof. intros Hnil. unfold AdaptiveAI_make_guess. by rewrite Hnil. Qed.


(** * The guesses of [MonteCarloTreeSearchAI] *)

Lemma foldl_invariant {A B} (f : A → B → A) (I : A → Prop) (P : B → Prop)
    (l : list B) (a : A) :
  I a → Forall P l → (∀ a b, I a → P b → I (f a b)) → I (foldl f a l).
Proof.
  intros Ha Hl Hstep. revert a Ha.
  induction Hl as [|b l Hb _ IH]; intros a Ha; [done|].
  simpl. apply IH. by apply Hstep.
Qed.

(** ** [_simple_guess] *)

Lemma best_heat_positions_targets self (c : cell) :
  c ∈ best_heat_positions self → c ∈ possible_targets self.
Proof.
  unfold best_heat_positions.
  apply (foldl_invariant (heat_step self)
           (λ st, ∀ c, c ∈ st.2 → c ∈ possible_targets self)
           (λ p, p ∈ possible_targets self)).
  - intros c' Hc'. by apply elem_of_nil in Hc'.
  - by apply Forall_forall.
  - intros [best bps] p Hst Hp c'. unfold heat_step.
    destruct (xscore_gt _ best); [|destruct (xscore_eq _ best)]; simpl.
    + by intros ->%list_elem_of_singleton.
    + intros [?| ->%list_elem_of_singleton]%elem_of_app; [by apply Hst|done].
    + apply Hst.
Qed.

Lemma simple_guess_returns self w :
  possible_targets self ≠ [] →
  returns (_simple_guess self) w (λ c, c ∈ possible_targets self).
Proof.
  intros Hne. unfold _simple_guess.
  destruct (first_adjacents self (unsunk_hits self)) as [|a adj] eqn:Hadj.
  - destruct (best_heat_positions self) as [|b bps] eqn:Hbest.
    + by apply random_choice_returns.
    + eapply returns_impl; [by apply random_choice_returns|].
      intros c Hc. apply best_heat_positions_targets. by rewrite Hbest.
  - eapply returns_impl; [by apply random_choice_returns|].
    intros c Hc. apply (first_adjacents_targets self (unsunk_hits self)).
    by rewrite Hadj.
Qed.

(** ** Playouts *)

Lemma Qdiv_nonneg (a b : Q) : (0 <= a)%Q → (0 <= b)%Q → (0 <= a / b)%Q.
Proof.
  destruct a as [an ad], b as [bn bd].
  unfold Qle, Qdiv, Qmult, Qinv. simpl.
  destruct bn as [|p|p]; simpl; intros Ha Hb; nia.
Qed.

Lemma Qplus_nonneg (a b : Q) : (0 <= a)%Q → (0 <= b)%Q → (0 <= a + b)%Q.
Proof.
  intros Ha Hb. change (0 + 0 <= a + b)%Q. by apply Qplus_le_compat.
Qed.

Lemma inject_Z_nonneg (z : Z) : 0 ≤ z → (0 <= inject_Z z)%Q.
Proof. intros Hz. unfold Qle. simpl. lia. Qed.

Lemma playout_target_returns s w :
  sim_targets s ≠ [] →
  returns (playout_target s) w (λ c, c ∈ sim_targets s).
Proof.
  intros Hne. unfold playout_target.
  match goal with
  | |- context [match ?near with [] => _ | _ :: _ => _ end] =>
      assert (Hnear : ∀ c, c ∈ near → c ∈ sim_targets s);
      [|destruct near as [|a adj]]
  end.
  - induction (sim_hits s) as [|h hs IH];
      [intros c Hc; by apply elem_of_nil in Hc|].
    destruct (filter (λ p, p ∈ sim_targets s) (shift h <$> orthogonal_steps))
      as [|a adj] eqn:Hf; [exact IH|].
    rewrite <- Hf. by intros c [? _]%list_elem_of_filter.
  - by apply random_choice_returns.
  - eapply returns_impl; [by apply random_choice_returns|]. exact Hnear.
Qed.

Lemma playout_loop_returns fuel s w :
  (Z.to_nat (50 - shots_taken s) ≤ fuel)%nat →
  1 ≤ shots_taken s → 0 ≤ sim_ships_sunk s →
  returns (playout_loop fuel s) w
    (λ s', 1 ≤ shots_taken s' ∧ 0 ≤ sim_ships_sunk s').
Proof.
  revert s w. induction fuel as [|fuel IH]; intros s w Hfuel Hshots Hsunk.
  - cbn [playout_loop].
    destruct (sim_targets s), (sim_remaining_ships s); try by apply returns_ret.
    destruct (shots_taken s <? 50) eqn:Hlt; [|by apply returns_ret].
    apply Z.ltb_lt in Hlt. lia.
  - cbn [playout_loop].
    destruct (sim_targets s) as [|t ts] eqn:Hts; [by apply returns_ret|].
    destruct (sim_remaining_ships s) as [|r rs] eqn:Hrs;
      [by apply returns_ret|].
    destruct (shots_taken s <? 50) eqn:Hlt; [|by apply returns_ret].
    apply Z.ltb_lt in Hlt. rewrite <- Hts.
    eapply returns_bind; [apply playout_target_returns; by rewrite Hts|].
    intros target w1 Htarget.
    destruct (py_remove_Ok target (sim_targets s) Htarget)
      as (targets & Hrem & _).
    eapply returns_bind;
      [by eapply (returns_lift _ targets _ (λ l, l = targets))|].
    intros ? w2 ->.
    eapply returns_bind; [apply random_random_returns|].
    intros q w3 _. destruct (Qlt_le_dec q (3 # 10)).
    + eapply returns_bind; [apply random_random_returns|].
      intros q' w4 _.
      destruct (Qlt_le_dec q' (2 # 10)); apply IH; simpl; lia.
    + apply IH; simpl; lia.
Qed.

Lemma simulate_from_position_returns self position w :
  position ∈ possible_targets self →
  returns (_simulate_from_position self position) w (λ q, (0 <= q)%Q).
Proof.
  intros Hpos. unfold _simulate_from_position.
  eapply returns_bind; [apply random_random_returns|].
  intros q w1 _.
  destruct (py_remove_Ok position (possible_targets self) Hpos)
    as (targets & Hrem & _).
  eapply returns_bind;
    [by eapply (returns_lift _ targets _ (λ l, l = targets))|].
  intros ? w2 ->.
  eapply returns_bind; [apply playout_loop_returns; simpl; lia|].
  intros s w3 [Hshots Hsunk]. apply returns_ret.
  destruct (sim_remaining_ships s).
  - apply Qdiv_nonneg; [done|]. apply inject_Z_nonneg. lia.
  - apply Qdiv_nonneg; [|apply inject_Z_nonneg; lia].
    apply Qmult_le_0_compat; [by apply inject_Z_nonneg|done].
Qed.

(** ** The dictionaries of the search *)

Lemma items_get_elem {V} (d : list (cell * V)) k v :
  items_get d k = Some v → (k, v) ∈ d.
Proof.
  induction d as [|[k' v'] d IH]; cbn [items_get]; [done|].
  destruct (decide (k = k')) as [->|Hne].
  - intros [= ->]. left.
  - intros Hd. right. by apply IH.
Qed.

Lemma items_get_app {V} (d : list (cell * V)) k v :
  items_get d k = None → items_get (d ++ [(k, v)]) k = Some v.
Proof.
  induction d as [|[k' v'] d IH]; cbn [items_get app].
  - by rewrite decide_True.
  - destruct (decide (k = k')); [done|]. exact IH.
Qed.

Lemma dd_get_spec {V} (dflt : V) (d : list (cell * V)) k
    (P : cell * V → Prop) :
  Forall P d → P (k, dflt) →
  P (k, (dd_get dflt d k).1) ∧ Forall P (dd_get dflt d k).2
  ∧ items_get (dd_get dflt d k).2 k = Some (dd_get dflt d k).1.
Proof.
  intros Hd Hk. unfold dd_get. destruct (items_get d k) as [v|] eqn:Hget.
  - simpl. split; [|done].
    apply items_get_elem in Hget. by eapply (proj1 (Forall_forall P d)).
  - simpl. split; [done|]. split.
    + apply Forall_app. split; [done|]. by constructor.
    + by apply items_get_app.
Qed.

Lemma dd_get_present {V} (dflt : V) (d : list (cell * V)) k v :
  items_get d k = Some v → dd_get dflt d k = (v, d).
Proof. unfold dd_get. by intros ->. Qed.

Lemma items_set_Forall {V} (P : cell * V → Prop) (d : list (cell * V)) k v :
  Forall P d → P (k, v) → Forall P (items_set d k v).
Proof.
  intros Hd Hk. induction Hd as [|[k' v'] d Hkv Hd IH]; cbn [items_set].
  - by constructor.
  - destruct (decide (k = k')) as [->|Hne]; by constructor.
Qed.

(** ** [_select_position] and the search loop *)


Section search.
Variable ucb_bonus : Z → Z → Q.
Hypothesis Hucb : exploration_nonneg ucb_bonus.
Variable self : BaseAI.

(** The visit counts are non-negative counts of possible targets, and the
  accumulated scores are non-negative. *)
Definition counts_ok (visit_counts : list (cell * Z)) : Prop :=
Forall (λ kv, kv.1 ∈ possible_targets self ∧ 0 ≤ kv.2) visit_counts.

Definition scores_ok (win_scores : list (cell * Q)) : Prop :=
Forall (λ kv, (0 <= kv.2)%Q) win_scores.

Definition scan_ok
  (st : list (cell * Z) * list (cell * Q) * xscore * list cell) : Prop :=
counts_ok st.1.1.1 ∧ scores_ok st.1.1.2
∧ (∀ c, c ∈ st.2 → c ∈ possible_targets self)
∧ (st.2 ≠ [] ∨ st.1.2 = Fin (-1)).

Lemma total_visits_nonneg visit_counts :
counts_ok visit_counts → 0 ≤ foldr Z.add 0 (snd <$> visit_counts).
Proof.
induction 1 as [|[k v] d [_ Hv] _ IH]; [done|].
rewrite fmap_cons. cbn [foldr snd] in *. lia.
Qed.

Lemma scan_step_ok total st pos :
1 ≤ total → pos ∈ possible_targets self → scan_ok st →
scan_ok (scan_step ucb_bonus total st pos)
∧ (scan_step ucb_bonus total st pos).2 ≠ [].
Proof.
intros Htotal Hpos. destruct st as [[[vc ws] best] bps].
intros (Hvc & Hws & Hbps & Hbest). simpl in Hvc, Hws, Hbps, Hbest.
unfold scan_step.
destruct (dd_get_spec 0 vc pos
            (λ kv, kv.1 ∈ possible_targets self ∧ 0 ≤ kv.2) Hvc)
  as ([_ Hvisits] & Hvc1 & Hget); [by split|].
destruct (dd_get 0 vc pos) as [visits vc1]. simpl in Hvisits, Hvc1, Hget.
assert (Hfinal : ∀ score ws1,
  scores_ok ws1 → (best = Fin (-1) → xscore_gt score best = true) →
  let r := if xscore_gt score best then (vc1, ws1, score, [pos])
           else if xscore_eq score best then (vc1, ws1, best, bps ++ [pos])
           else (vc1, ws1, best, bps) in
  scan_ok r ∧ r.2 ≠ []).
{ intros score ws1 Hws1 Hgt.
  destruct (xscore_gt score best) eqn:Hsb;
    [|destruct (xscore_eq score best)]; simpl.
  - split; [|done]. split; [done|]. split; [done|]. split; [|by left].
    by intros c ->%list_elem_of_singleton.
  - assert (bps ++ [pos] ≠ []) by by destruct bps.
    split; [|done]. split; [done|]. split; [done|]. split; [|by left].
    intros c [?| ->%list_elem_of_singleton]%elem_of_app; by auto.
  - destruct Hbest as [Hne|Heq]; [|by specialize (Hgt Heq)].
    split; [|done]. split; [done|]. split; [done|]. split; [done|by left]. }
destruct (visits =? 0) eqn:Hzero.
- apply (Hfinal PosInf ws Hws). by intros ->.
- apply Z.eqb_neq in Hzero.
  destruct (dd_get_spec 0%Q ws pos (λ kv, (0 <= kv.2)%Q) Hws)
    as (Hwon & Hws1 & _); [done|].
  destruct (dd_get 0%Q ws pos) as [won ws1]. simpl in Hwon, Hws1.
  rewrite !(dd_get_present 0 vc1 pos visits Hget).
  apply (Hfinal _ ws1 Hws1). intros ->. simpl.
  destruct (Qlt_le_dec (-1) (won / inject_Z visits + ucb_bonus total visits))
    as [|Hle]; [done|].
  assert (0 <= won / inject_Z visits + ucb_bonus total visits)%Q.
  { apply Qplus_nonneg.
    - apply Qdiv_nonneg; [done|]. apply inject_Z_nonneg. lia.
    - apply Hucb; lia. }
  exfalso. apply (Qle_not_lt _ _ Hle).
  eapply Qlt_le_trans; [|eassumption]. reflexivity.
Qed.

Lemma scan_fold_ok total (l : list cell) st :
1 ≤ total → Forall (λ p, p ∈ possible_targets self) l → l ≠ [] →
scan_ok st →
scan_ok (foldl (scan_step ucb_bonus total) st l)
∧ (foldl (scan_step ucb_bonus total) st l).2 ≠ [].
Proof.
intros Htotal Hall Hne Hst. destruct l as [|t ts]; [done|].
apply Forall_cons in Hall as [Ht Hall]. cbn [foldl].
apply (foldl_invariant (scan_step ucb_bonus total)
         (λ st, scan_ok st ∧ st.2 ≠ [])
         (λ p, p ∈ possible_targets self)); [|done|].
- by apply scan_step_ok.
- intros st' p [Hst' _] Hp. by apply scan_step_ok.
Qed.

Lemma select_scan_ok total visit_counts win_scores :
1 ≤ total → possible_targets self ≠ [] →
counts_ok visit_counts → scores_ok win_scores →
scan_ok (select_scan ucb_bonus self total visit_counts win_scores)
∧ (select_scan ucb_bonus self total visit_counts win_scores).2 ≠ [].
Proof.
intros Htotal Hne Hvc Hws. unfold select_scan.
apply scan_fold_ok; [done|by apply Forall_forall|done|].
split; [done|]. split; [done|]. split; [|by right].
intros c Hc. by apply elem_of_nil in Hc.
Qed.

Lemma select_position_returns visit_counts win_scores w :
possible_targets self ≠ [] →
counts_ok visit_counts → scores_ok win_scores →
returns (_select_position ucb_bonus self visit_counts win_scores) w
  (λ r, r.1.1 ∈ possible_targets self ∧ counts_ok r.1.2 ∧ scores_ok r.2).
Proof.
intros Hne Hvc Hws. unfold _select_position.
pose proof (total_visits_nonneg _ Hvc) as Htotal.
destruct (foldr Z.add 0 (snd <$> visit_counts) =? 0) eqn:Hzero.
- eapply returns_bind; [by apply random_choice_returns|].
  intros c w1 Hc. by apply returns_ret.
- apply Z.eqb_neq in Hzero.
  destruct (select_scan_ok (foldr Z.add 0 (snd <$> visit_counts))
              visit_counts win_scores) as [Hok Hbps]; [lia|done..|].
  destruct (select_scan _ _ _ _ _) as [[[vc ws] best] bps].
  destruct Hok as (Hvc' & Hws' & Hsub & _). simpl in *.
  eapply returns_bind; [by apply random_choice_returns|].
  intros c w1 Hc. apply returns_ret. simpl. by auto.
Qed.
End search.

Lemma search_loop_returns ucb_bonus budget (self : MonteCarloTreeSearchAI)
    start_time visit_counts win_scores w :
  exploration_nonneg ucb_bonus →
  possible_targets (mcts_base self) ≠ [] →
  counts_ok (mcts_base self) visit_counts → scores_ok win_scores →
  returns (search_loop ucb_bonus budget self start_time visit_counts
             win_scores) w
    (λ r, counts_ok (mcts_base self) r.1 ∧ scores_ok r.2).
Proof.
  intros Hucb Hne. revert visit_counts win_scores w.
  induction budget as [|budget IH]; intros vc ws w Hvc Hws;
    cbn [search_loop]; [by apply returns_ret|].
  eapply returns_bind; [apply time_time_returns|].
  intros now w1 _.
  destruct (Qlt_le_dec (now - start_time) (time_limit self));
    [|by apply returns_ret].
  eapply returns_bind; [by apply select_position_returns|].
  intros [[position vc1] ws1] w2 (Hpos & Hvc1 & Hws1). simpl in Hpos, Hvc1, Hws1.
  eapply returns_bind; [by apply simulate_from_position_returns|].
  intros score w3 Hscore.
  destruct (dd_get_spec 0 vc1 position
              (λ kv, kv.1 ∈ possible_targets (mcts_base self) ∧ 0 ≤ kv.2) Hvc1)
    as ([_ Hvisits] & Hvc2 & _); [by split|].
  destruct (dd_get 0 vc1 position) as [visits vc2]. simpl in Hvisits, Hvc2.
  destruct (dd_get_spec 0%Q ws1 position (λ kv, (0 <= kv.2)%Q) Hws1)
    as (Hwon & Hws2 & _); [done|].
  destruct (dd_get 0%Q ws1 position) as [won ws2]. simpl in Hwon, Hws2.
  apply IH.
  - apply items_set_Forall; [done|]. simpl. split; [done|lia].
  - apply items_set_Forall; [done|]. simpl. by apply Qplus_nonneg.
Qed.

Lemma best_average_key visit_counts win_scores (p : cell) :
  best_average visit_counts win_scores = Some p → p ∈ visit_counts.*1.
Proof.
  unfold best_average.
  apply (foldl_invariant average_step
           (λ st, st.1.1 = Some p → p ∈ visit_counts.*1)
           (λ item, item ∈ visit_counts)).
  - done.
  - by apply Forall_forall.
  - intros [[best avg] ws] [pos visits] Hst Hitem. unfold average_step.
    destruct (0 <? visits); [|done].
    destruct (dd_get 0%Q ws pos) as [won ws'].
    destruct (Qlt_le_dec avg (won / inject_Z visits)); [|done].
    simpl. intros [= <-]. apply list_elem_of_fmap. by exists (pos, visits).
Qed.

Lemma mcts_make_guess_returns ucb_bonus (self : MonteCarloTreeSearchAI) w :
  exploration_nonneg ucb_bonus →
  possible_targets (mcts_base self) ≠ [] →
  returns (MonteCarloTreeSearchAI_make_guess ucb_bonus self) w
    (λ r, ∃ c, r = Some c ∧ c ∈ possible_targets (mcts_base self)).
Proof.
  intros Hucb Hne. unfold MonteCarloTreeSearchAI_make_guess.
  destruct (possible_targets (mcts_base self)) as [|t0 ts] eqn:Hts; [done|].
  rewrite <- Hts in *.
  destruct ((Z.of_nat (length (shots_fired (mcts_base self))) <? 5)
            || (Z.of_nat (length (possible_targets (mcts_base self))) <? 10)).
  - eapply returns_bind; [by apply simple_guess_returns|].
    intros c w1 Hc. apply returns_ret. by exists c.
  - eapply returns_bind; [apply time_time_returns|].
    intros start w1 _.
    eapply returns_bind.
    { apply search_loop_returns; [done..| |]; by constructor. }
    intros [vc ws] w2 [Hvc _]. simpl in Hvc.
    destruct (best_average vc ws) as [best|] eqn:Hbest.
    + apply returns_ret. exists best. split; [done|].
      apply best_average_key in Hbest.
      apply list_elem_of_fmap in Hbest as ([k v] & -> & Hkv).
      by apply (proj1 (Forall_forall _ _) Hvc (k, v)).
    + eapply returns_bind; [by apply random_choice_returns|].
      intros c w3 Hc. apply returns_ret. by exists c.
Qed.

Lemma mcts_make_guess_empty ucb_bonus (self : MonteCarloTreeSearchAI) w :
  possible_targets (mcts_base self) = [] →
  MonteCarloTreeSearchAI_make_guess ucb_bonus self w = Ok (None, w).
Proof.
  intros Hnil. unfold MonteCarloTreeSearchAI_make_guess. by rewrite Hnil.
Qed.


(** * The guesses of [NeuralNetworkAI] *)








(** * The engines behind [AIPlayer] *)


Lemma bind_Ok {A B} (m : rand A) (k : A → rand B) w a w1 :
  m w = Ok (a, w1) → (m ≫= k) w = k a w1.
Proof. unfold mbind, rand_bind. by intros ->. Qed.


Section host_properties.
Variable ucb_bonus : Z → Z → Q.
Hypothesis Hucb : exploration_nonneg ucb_bonus.

Lemma core_make_guess_returns core w :
strategy_variant core → possible_targets (core_base core) ≠ [] →
returns (core_make_guess ucb_bonus core) w
  (λ r, core_base r.2 = core_base core
        ∧ ∃ c, r.1 = Some c ∧ c ∈ possible_targets (core_base core)).
Proof.
intros Hs Hne. destruct core as [ai|ai|ai|ai|ai]; try done;
  cbn [core_make_guess core_base] in *.
- eapply returns_bind; [by apply hunt_make_guess_returns|].
  intros [r ai'] w' (c & Hc & Hin & Hbase). apply returns_ret.
  split; [done|]. by exists c.
- eapply returns_bind.
  { apply adaptive_make_guess_returns;
      [by apply trained_has_guess_weights|done]. }
  intros r w' (c & -> & Hin). apply returns_ret. split; [done|]. by exists c.
- eapply returns_bind; [by apply mcts_make_guess_returns|].
  intros r w' (c & -> & Hin). apply returns_ret. split; [done|]. by exists c.
Qed.

Lemma core_make_guess_empty core w :
strategy_variant core → possible_targets (core_base core) = [] →
∃ w', core_make_guess ucb_bonus core w = Ok ((None, core), w').
Proof.
intros Hs Hnil. destruct core as [ai|ai|ai|ai|ai]; try done;
  cbn [core_make_guess core_base] in *; exists w.
- by rewrite (bind_Ok _ _ _ _ _ (hunt_make_guess_empty ai w Hnil)).
- by rewrite (bind_Ok _ _ _ _ _ (adaptive_make_guess_empty ai w Hnil)).
- by rewrite (bind_Ok _ _ _ _ _ (mcts_make_guess_empty ucb_bonus ai w Hnil)).
Qed.





End host_properties.

(** ** C2: every strategy proposes an undetermined cell *)

(** C2 (confirmed): for the hunting, the adaptive and the simulation
    search engines, in every board state reached by recording outcomes,
    whatever the random draws and the clock: when an undetermined cell
    remains, [make_guess] returns a cell that is undetermined and is not
    in [shots_fired]; when none remains, it returns [None].  The number
    of simulations of the search is arbitrary, zero included. *)
Theorem choose_cell_returns_fresh_target (ucb_bonus : Z → Z → Q) (n : Z)
    (core : AICore) (w : World) :
  exploration_nonneg ucb_bonus →
  strategy_variant core →
  reachable n (core_base core) →
  (possible_targets (core_base core) ≠ [] →
   returns (core_make_guess ucb_bonus core) w
     (λ r, ∃ c, r.1 = Some c
                ∧ c ∈ possible_targets (core_base core)
                ∧ c ∉ shots_fired (core_base core)))
  ∧ (possible_targets (core_base core) = [] →
     returns (core_make_guess ucb_bonus core) w (λ r, r.1 = None)).
Proof.
  intros Hucb Hs (_ & _ & _ & Hshots)%reachable_targets_wf. split.
  - intros Hne.
    eapply returns_impl; [by apply core_make_guess_returns|].
    intros r [_ (c & Hc & Hin)]. exists c. split; [done|]. split; [done|].
    intros Hshot. by apply (Hshots c Hshot).
  - intros Hnil.
    destruct (core_make_guess_empty ucb_bonus core w Hs Hnil) as [w' Heq].
    by exists (None, core), w'.
Qed.

Lemma choose_cell_returns_fresh_target_witness :
  returns (core_make_guess no_exploration search_without_budget) still_world
    (λ r, ∃ c, r.1 = Some c
               ∧ c ∈ possible_targets (core_base search_without_budget)
               ∧ c ∉ shots_fired (core_base search_without_budget)).
Proof.
  refine (proj1 (choose_cell_returns_fresh_target no_exploration 10
                   search_without_budget still_world _ _ _) _).
  - intros total visits _ _. apply Qle_refl.
  - exact I.
  - change (reachable 10 six_misses). unfold six_misses.
    apply state_after_reachable.
  - intros Hnil. vm_compute in Hnil. discriminate Hnil.
Defined.

(** ** C10: the move of the host layer *)



